(** * Konva [Container]: a shallow embedding of src/Container.ts

    The file has two parts.  Part I holds the model: JavaScript values, the
    scene tree and the algorithms that walk it (search, drawing, client
    rectangle, cache invalidation), then the object store on which [add] and
    the removals mutate parent and index links.  Part II holds the theorems.

    The walks are written over a tree of node values, the shape a store of
    node objects has when every child is held by one parent; the mutations
    are written over the store itself, with its [parent], [index] and
    [children] fields, since they are about keeping these fields in step.

    Methods of [Node], [Shape], [Transform] and the accessor factory live in
    other files of the repository.  What [Container] consumes from them is
    gathered in the class [NodeBase]; the few that are given a body here say
    so in their comment. *)

From Stdlib Require Import List Bool Arith PeanoNat Lia String Ascii Floats.
Import ListNotations.

Set Implicit Arguments.
Set Warnings "-register-all".

(* ================================================================== *)
(** * Part I -- the model *)
(* ================================================================== *)

(** ** JavaScript values *)

Module JS.

(** A JavaScript number is an IEEE-754 double. *)
Definition number := float.

(** ToBoolean on [number | undefined]: [undefined], [+0], [-0] and [NaN]
    are falsy. *)
Definition truthy (v : option number) : bool :=
  match v with
  | None => false
  | Some n => negb (PrimFloat.eqb n 0%float || PrimFloat.is_nan n)
  end.

(** [n === 0] on numbers (true for both zeros, false for [NaN]). *)
Definition is_zero (n : number) : bool := PrimFloat.eqb n 0%float.

(** [Math.min] and [Math.max] on two numbers: [NaN] is contagious and
    [-0] is smaller than [+0]. *)
Definition Math_min (a b : number) : number :=
  if PrimFloat.is_nan a || PrimFloat.is_nan b then nan
  else if PrimFloat.ltb a b then a
  else if PrimFloat.ltb b a then b
  else match PrimFloat.classify a with NZero => a | _ => b end.

Definition Math_max (a b : number) : number :=
  if PrimFloat.is_nan a || PrimFloat.is_nan b then nan
  else if PrimFloat.ltb a b then b
  else if PrimFloat.ltb b a then a
  else match PrimFloat.classify a with PZero => a | _ => b end.

End JS.

Import JS.

(** ** The scene tree *)

(** [IRect] of types.ts. *)
Record IRect := mkRect { x : number; y : number; width : number; height : number }.

(** The six entries of a [Transform] matrix. *)
Record Matrix := mkMatrix
  { m0 : number; m1 : number; m2 : number; m3 : number; m4 : number; m5 : number }.

(** A user clip callback, an opaque function value. *)
Definition ClipFunc := nat.

(** A cached bitmap, an opaque canvas. *)
Definition Bitmap := nat.

(** The entry [_getCanvasCache()] returns: [cachedCanvas.scene] and
    [cachedCanvas.hit]. *)
Record CanvasCache := mkCanvasCache { scene : option Bitmap; hit : option Bitmap }.

(** The attributes of [ContainerConfig] that [Container] reads, with the
    identifiers the selector grammar looks at. *)
Record Attrs := mkAttrs
  { attr_id : string;
    attr_name : string;
    visible : bool;
    clipX : option number;
    clipY : option number;
    clipWidth : option number;
    clipHeight : option number;
    clipFunc : option ClipFunc;
    globalCompositeOperation : string }.

(** The state of one node object, children apart. *)
Record NodeData := mkNodeData
  { _id : nat;
    className : string;
    nodeType : string;
    attrs : Attrs;
    canvasCache : option CanvasCache;
    attrCache : list string }.

(** A node is a leaf shape or a container with its ordered children. *)
Inductive Node : Type :=
| Shape (d : NodeData)
| Container (d : NodeData) (children : list Node).

Definition data (n : Node) : NodeData :=
  match n with Shape d => d | Container d _ => d end.

(** [getChildren()] without a filter: [this.children || []]. *)
Definition getChildren (n : Node) : list Node :=
  match n with Shape _ => [] | Container _ cs => cs end.

(** [hasChildren()]: [this.getChildren().length > 0]; [Node.hasChildren] of a
    shape is [false]. *)
Definition hasChildren (n : Node) : bool :=
  match getChildren n with [] => false | _ :: _ => true end.

(** [string | Function] *)
Inductive Selector : Type :=
| selString (s : string)
| selFunction (f : Node -> bool).

Record Canvas := mkCanvas { canvasId : nat; isCache : bool }.

(** What [getLayer()] returns: [layer.getCanvas()] and [layer.hitCanvas]. *)
Record Layer := mkLayer { getCanvas : Canvas; hitCanvas : Canvas }.

(** The [config] argument of [getClientRect]. *)
Record ClientRectConfig := mkConfig
  { skipTransform : bool;
    skipShadow : bool;
    skipStroke : bool;
    relativeTo : option NodeData }.

(** What [Container] consumes from its collaborators (Node.ts, Shape.ts,
    Util.ts): each is a method whose body is outside src/. *)
Class NodeBase := mkNodeBase
  { _isMatch : Node -> Selector -> bool;
    isVisible : NodeData -> bool;
    _isVisible : NodeData -> NodeData -> bool;
    shouldDrawHit : NodeData -> option NodeData -> bool;
    getLayer : NodeData -> option Layer;
    getAbsoluteTransform : NodeData -> option NodeData -> Matrix;
    invert : Matrix -> Matrix;
    Shape_getClientRect : NodeData -> ClientRectConfig -> IRect;
    _transformedRect : NodeData -> IRect -> option NodeData -> IRect;
    Node_clearSelfAndDescendantCache : NodeData -> option string -> NodeData }.

(** ** Search: [_descendants], [_generalFind], [find], [findOne] *)

Section Search.
Context `{NodeBase}.

(** [_descendants(fn)].  The callback is stateful in the source (it pushes
    on [retArr]); its state [S] is threaded through the walk. *)
Fixpoint _descendants {S : Type} (fn : Node -> S -> bool * S)
         (this : Node) (s : S) {struct this} : bool * S :=
  let loop :=
    fix loop (children : list Node) (s : S) {struct children} : bool * S :=
      match children with
      | [] => (false, s)
      | child :: rest =>
          let (shouldStop, s1) := fn child s in
          if shouldStop then (true, s1)
          else if negb (hasChildren child) then loop rest s1
          else
            let (shouldStop', s2) := _descendants fn child s1 in
            if shouldStop' then (true, s2) else loop rest s2
      end in
  match this with
  | Shape _ => loop [] s
  | Container _ cs => loop cs s
  end.

(** The arrow function [_generalFind] hands to [_descendants]. *)
Definition findCallback (selector : Selector) (findOne : bool)
  : Node -> list Node -> bool * list Node :=
  fun node retArr =>
    let valid := _isMatch node selector in
    let retArr := if valid then retArr ++ [node] else retArr in
    if valid && findOne then (true, retArr) else (false, retArr).

Definition _generalFind (this : Node) (selector : Selector) (findOne : bool)
  : list Node :=
  snd (_descendants (findCallback selector findOne) this []).

Definition find (this : Node) (selector : Selector) : list Node :=
  _generalFind this selector false.

(** [result.length > 0 ? result[0] : undefined] *)
Definition findOne (this : Node) (selector : Selector) : option Node :=
  match _generalFind this selector true with
  | [] => None
  | r :: _ => Some r
  end.

(** Whether a node matches the selector. *)
Definition matching (selector : Selector) (n : Node) : bool := _isMatch n selector.

(** A callback wrapped so that every node it is called on is recorded. *)
Definition logged {S : Type} (fn : Node -> S -> bool * S)
  : Node -> list Node * S -> bool * (list Node * S) :=
  fun node st =>
    let (b, s') := fn node (snd st) in (b, (fst st ++ [node], s')).

(** The nodes the walk of [_generalFind] calls its callback on, in order. *)
Definition visited (this : Node) (selector : Selector) (findOne : bool)
  : list Node :=
  fst (snd (_descendants (logged (findCallback selector findOne)) this ([], []))).

(** Pre-order of the proper descendants, as the specification words it:
    children in sequence order, each child's subtree before its next
    sibling. *)
Fixpoint preorder (this : Node) : list Node :=
  match this with
  | Shape _ => []
  | Container _ cs => flat_map (fun c => c :: preorder c) cs
  end.

End Search.

(** ** Drawing: [drawScene], [drawHit], [_drawChildren] *)

(** ['drawScene'] or ['drawHit'], the method name [_drawChildren] is given. *)
Inductive DrawMethod := drawScene_ | drawHit_.

(** A call on a drawing context. *)
Inductive ContextCall :=
| save
| restore
| transform (m : Matrix)
| beginPath
| rect (cx cy cw ch : option number)
| clip
| clipFunc_call (f : ClipFunc) (this : nat)
| _applyGlobalCompositeOperation (node : nat)
| _drawCachedSceneCanvas (node : nat)
| _drawCachedHitCanvas (node : nat).

(** What a draw call does to the outside: calls on the context of a canvas,
    and the draw method of a leaf shape (Shape.ts), recorded with its
    arguments. *)
Inductive Event :=
| ctx (canvas : Canvas) (call : ContextCall)
| shapeDraw (m : DrawMethod) (shape : nat) (canvas : option Canvas) (top : option nat).

(** [context = canvas && canvas.getContext()]: a call on the context of an
    absent canvas raises a TypeError, modelled as [None]. *)
Definition onContext (canvas : option Canvas) (calls : list ContextCall)
  : option (list Event) :=
  match canvas with
  | Some c => Some (map (ctx c) calls)
  | None => None
  end.

(** [children.forEach(child => child[drawMethod](canvas, top))]: the events
    of the children in sequence order; an exception of one child ends the
    loop. *)
Definition forEach_draw (childDraw : Node -> option (list Event))
  : list Node -> option (list Event) :=
  fix go (children : list Node) : option (list Event) :=
    match children with
    | [] => Some []
    | child :: rest =>
        match childDraw child with
        | None => None
        | Some l =>
            match go rest with
            | None => None
            | Some l' => Some (l ++ l')
            end
        end
    end.

(** [a; b] where either may throw. *)
Definition seq_events (a b : option (list Event)) : option (list Event) :=
  match a with
  | None => None
  | Some l => match b with None => None | Some l' => Some (l ++ l') end
  end.

(** Modelled from the spec: [_getCanvasCache()] is a method of Node.ts; it
    reads the cache slot of the node, which the specification describes as
    {Uncached | Cached(scene_bitmap, hit_bitmap)}. *)
Definition _getCanvasCache (d : NodeData) : option CanvasCache := canvasCache d.

Section Drawing.
Context `{NodeBase}.

(** [top === this] *)
Definition selfCache (d : NodeData) (top : option NodeData) : bool :=
  match top with
  | Some t => _id t =? _id d
  | None => false
  end.

(** [(clipWidth && clipHeight) || clipFunc] read as a condition. *)
Definition hasClip (d : NodeData) : bool :=
  (truthy (clipWidth (attrs d)) && truthy (clipHeight (attrs d)))
  || match clipFunc (attrs d) with Some _ => true | None => false end.

Definition hasComposition (d : NodeData) (drawMethod : DrawMethod)
           (top : option NodeData) : bool :=
  negb (selfCache d top)
  && negb (String.eqb (globalCompositeOperation (attrs d)) "source-over")
  && match drawMethod with drawScene_ => true | drawHit_ => false end.

(** The block of [_drawChildren] under [if (hasClip)], before the children. *)
Definition clipBlock (d : NodeData) (top : option NodeData) : list ContextCall :=
  let m := getAbsoluteTransform d top in
  [save; transform m; beginPath;
   match clipFunc (attrs d) with
   | Some f => clipFunc_call f (_id d)
   | None => rect (clipX (attrs d)) (clipY (attrs d))
                  (clipWidth (attrs d)) (clipHeight (attrs d))
   end;
   clip; transform (invert m)].

(** [_drawChildren(drawMethod, canvas, top)].  [childDraw] stands for the
    dynamic dispatch [child[drawMethod]]. *)
Definition _drawChildren
           (childDraw : Node -> option Canvas -> option NodeData -> option (list Event))
           (d : NodeData) (children : list Node)
           (drawMethod : DrawMethod) (canvas : option Canvas)
           (top : option NodeData) : option (list Event) :=
  seq_events (if hasClip d then onContext canvas (clipBlock d top) else Some [])
 (seq_events (if hasComposition d drawMethod top
              then onContext canvas [save; _applyGlobalCompositeOperation (_id d)]
              else Some [])
 (seq_events (forEach_draw (fun child => childDraw child canvas top) children)
 (seq_events (if hasComposition d drawMethod top
              then onContext canvas [restore] else Some [])
             (if hasClip d then onContext canvas [restore] else Some [])))).

(** [drawScene(can, top)] of a container. *)
Definition drawScene
           (childDraw : Node -> option Canvas -> option NodeData -> option (list Event))
           (d : NodeData) (children : list Node)
           (can : option Canvas) (top : option NodeData) : option (list Event) :=
  let layer := getLayer d in
  let canvas := match can with
                | Some c => Some c
                | None => option_map getCanvas layer
                end in
  let cachedCanvas := _getCanvasCache d in
  let cachedSceneCanvas := match cachedCanvas with
                           | Some cc => scene cc
                           | None => None
                           end in
  let caching := match canvas with Some c => isCache c | None => false end in
  if negb (isVisible d) && negb caching then Some []
  else
    match cachedSceneCanvas with
    | Some _ =>
        onContext canvas
          [save; transform (getAbsoluteTransform d top);
           _drawCachedSceneCanvas (_id d); restore]
    | None => _drawChildren childDraw d children drawScene_ canvas top
    end.

(** [drawHit(can, top)] of a container. *)
Definition drawHit
           (childDraw : Node -> option Canvas -> option NodeData -> option (list Event))
           (d : NodeData) (children : list Node)
           (can : option Canvas) (top : option NodeData) : option (list Event) :=
  if negb (shouldDrawHit d top) then Some []
  else
    let layer := getLayer d in
    let canvas := match can with
                  | Some c => Some c
                  | None => option_map hitCanvas layer
                  end in
    let cachedCanvas := _getCanvasCache d in
    let cachedHitCanvas := match cachedCanvas with
                           | Some cc => hit cc
                           | None => None
                           end in
    match cachedHitCanvas with
    | Some _ =>
        onContext canvas
          [save; transform (getAbsoluteTransform d top);
           _drawCachedHitCanvas (_id d); restore]
    | None => _drawChildren childDraw d children drawHit_ canvas top
    end.

(** [node[drawMethod](can, top)]: a container runs the method above, a
    shape runs its own, which is recorded as one event. *)
Fixpoint draw (drawMethod : DrawMethod) (this : Node)
         (can : option Canvas) (top : option NodeData) {struct this}
  : option (list Event) :=
  match this with
  | Shape d => Some [shapeDraw drawMethod (_id d) can (option_map _id top)]
  | Container d cs =>
      match drawMethod with
      | drawScene_ => drawScene (draw drawScene_) d cs can top
      | drawHit_ => drawHit (draw drawHit_) d cs can top
      end
  end.

End Drawing.

(** ** Client rectangle: [getClientRect] *)

(** The four running bounds [minX, minY, maxX, maxY]; they are assigned
    together, so [None] stands for all four being [undefined]. *)
Record Bounds := mkBounds
  { minX : number; minY : number; maxX : number; maxY : number }.

Definition zeroRect : IRect := mkRect 0%float 0%float 0%float 0%float.

(** [rect.width === 0 && rect.height === 0] *)
Definition degenerate (r : IRect) : bool := is_zero (width r) && is_zero (height r).

(** The two branches under [if (minX === undefined)]. *)
Definition expand (acc : option Bounds) (r : IRect) : option Bounds :=
  match acc with
  | None =>
      Some (mkBounds (x r) (y r) (x r + width r)%float (y r + height r)%float)
  | Some b =>
      Some (mkBounds (Math_min (minX b) (x r)) (Math_min (minY b) (y r))
                     (Math_max (maxX b) (x r + width r)%float)
                     (Math_max (maxY b) (y r + height r)%float))
  end.

(** One turn of the [forEach] over the children, given the rectangle the
    child reports. *)
Definition accumulate (childRect : Node -> IRect) (acc : option Bounds)
           (child : Node) : option Bounds :=
  if negb (visible (attrs (data child))) then acc
  else
    let r := childRect child in
    if degenerate r then acc else expand acc r.

Section ClientRect.
Context `{NodeBase}.

(** The loop [for (i = 0; i < shapes.length; i++)] with its [break]. *)
Definition hasVisible (d : NodeData) (shapes : list Node) : bool :=
  existsb (fun shape => _isVisible (data shape) d) shapes.

(** [selfRect] once the children and the shapes have been looked at. *)
Definition selfRect (acc : option Bounds) (visibleShape : bool) : IRect :=
  match acc with
  | Some b =>
      if visibleShape
      then mkRect (minX b) (minY b) (maxX b - minX b)%float (maxY b - minY b)%float
      else zeroRect
  | None => zeroRect
  end.

(** The configuration a container hands to each child. *)
Definition childConfig (d : NodeData) (config : ClientRectConfig) : ClientRectConfig :=
  mkConfig false (skipShadow config) (skipStroke config) (Some d).

(** [getClientRect(config)]; a shape answers with [Shape.getClientRect]. *)
Fixpoint getClientRect (this : Node) (config : ClientRectConfig) {struct this} : IRect :=
  match this with
  | Shape d => Shape_getClientRect d config
  | Container d cs =>
      let acc :=
        fold_left
          (accumulate (fun child => getClientRect child (childConfig d config)))
          cs None in
      let shapes := find this (selString "Shape") in
      let r := selfRect acc (hasVisible d shapes) in
      if negb (skipTransform config)
      then _transformedRect d r (relativeTo config)
      else r
  end.

(** The bounds accumulated over the children of a container. *)
Definition childBounds (d : NodeData) (cs : list Node) (config : ClientRectConfig)
  : option Bounds :=
  fold_left (accumulate (fun child => getClientRect child (childConfig d config)))
            cs None.

End ClientRect.

(** Addressing a node by the positions followed from the root. *)
Fixpoint nodeAt (path : list nat) (root : Node) : option Node :=
  match path with
  | [] => Some root
  | i :: rest =>
      match nth_error (getChildren root) i with
      | Some child => nodeAt rest child
      | None => None
      end
  end.

(** ** Cache invalidation: [_clearSelfAndDescendantCache] *)

(** Modelled from the spec: [isCached()] is a method of Node.ts; the
    specification describes the cache slot as a tagged state
    {Uncached | Cached(scene_bitmap, hit_bitmap)} per node, so a node is
    cached when its slot is filled. *)
Definition isCached (d : NodeData) : bool :=
  match canvasCache d with Some _ => true | None => false end.

Section CacheInvalidation.
Context `{NodeBase}.

(** [_clearSelfAndDescendantCache(attr)]: the base method on the node
    itself, then the children unless the node is cached.  A shape has the
    base method only. *)
Fixpoint _clearSelfAndDescendantCache (this : Node) (attr : option string)
  : Node :=
  match this with
  | Shape d => Shape (Node_clearSelfAndDescendantCache d attr)
  | Container d cs =>
      let d' := Node_clearSelfAndDescendantCache d attr in
      if isCached d' then Container d' cs
      else Container d' (map (fun node => _clearSelfAndDescendantCache node attr) cs)
  end.

(** Whether the walk from [root] is stopped above the node at [path]: some
    node strictly above it is cached when the walk reaches it. *)
Fixpoint blocked (attr : option string) (root : Node) (path : list nat) : bool :=
  match path with
  | [] => false
  | i :: rest =>
      isCached (Node_clearSelfAndDescendantCache (data root) attr)
      || match nth_error (getChildren root) i with
         | Some child => blocked attr child rest
         | None => false
         end
  end.

End CacheInvalidation.

(** ** The [clip] accessors *)

(** What the [clip()] getter returns: each component is the attribute or
    [undefined]. *)
Record ClipComponents := mkClip
  { clip_x : option number;
    clip_y : option number;
    clip_width : option number;
    clip_height : option number }.

Definition withAttrs (d : NodeData) (a : Attrs) : NodeData :=
  mkNodeData (_id d) (className d) (nodeType d) a (canvasCache d) (attrCache d).

(** Modelled from the spec: the setter that
    [Factory.addComponentsGetterSetter(Container, 'clip', ['x','y','width','height'])]
    generates (Factory.ts is outside src/).  The specification asks for
    "explicit typed fields with setter functions": the four components are
    stored in [clipX], [clipY], [clipWidth] and [clipHeight]. *)
Definition set_clip (d : NodeData) (r : IRect) : NodeData :=
  let a := attrs d in
  withAttrs d
    (mkAttrs (attr_id a) (attr_name a) (visible a)
             (Some (x r)) (Some (y r)) (Some (width r)) (Some (height r))
             (clipFunc a) (globalCompositeOperation a)).

(** Modelled from the spec: the getter of the same accessor, which reads the
    four stored components back. *)
Definition get_clip (d : NodeData) : ClipComponents :=
  let a := attrs d in
  mkClip (clipX a) (clipY a) (clipWidth a) (clipHeight a).

(** Modelled from the spec: the setters [clipWidth(v)] and [clipHeight(v)]
    that [Factory.addGetterSetter] generates, storing the number given. *)
Definition set_clipWidth (d : NodeData) (v : number) : NodeData :=
  let a := attrs d in
  withAttrs d
    (mkAttrs (attr_id a) (attr_name a) (visible a)
             (clipX a) (clipY a) (Some v) (clipHeight a)
             (clipFunc a) (globalCompositeOperation a)).

Definition set_clipHeight (d : NodeData) (v : number) : NodeData :=
  let a := attrs d in
  withAttrs d
    (mkAttrs (attr_id a) (attr_name a) (visible a)
             (clipX a) (clipY a) (clipWidth a) (Some v)
             (clipFunc a) (globalCompositeOperation a)).

(** ** Tree mutation on the object store: [add], [removeChildren],
       [_setChildrenIndices] *)

Module Mutation.

(** A reference to a node object. *)
Definition ref := nat.

(** Calls that leave the tree as it is, recorded in call order. *)
Inductive Effect :=
| _clearCaches (child : ref)
| _fire_add (this child : ref)
| _requestDraw (this : ref).

(** The object store, one map per field the mutations read and write:
    [n.parent], [n.index] and [n.children], which is
    [Array<ChildType> | undefined]. *)
Record Store := mkStore
  { parent : ref -> option ref;
    index : ref -> nat;
    children : ref -> option (list ref);
    effects : list Effect }.

(** A field map with one entry replaced. *)
Definition update {A : Type} (f : ref -> A) (n : ref) (v : A) : ref -> A :=
  fun k => if k =? n then v else f k.

(** How a call ends: it returns, it throws, or the model ran out of fuel. *)
Inductive Outcome (A : Type) :=
| Returned (a : A)
| Thrown
| OutOfFuel.
Arguments Thrown {A}.
Arguments OutOfFuel {A}.

(** A run: how it ended, the store it left, and the store after each
    write, in order. *)
Record Run (A : Type) := mkRun
  { outcome : Outcome A; final : Store; steps : list Store }.

Definition M (A : Type) := Store -> Run A.

Definition ret {A} (a : A) : M A := fun s => mkRun (Returned a) s [].

Definition bind {A B} (m : M A) (k : A -> M B) : M B :=
  fun s =>
    let r := m s in
    match outcome r with
    | Returned a =>
        let r' := k a (final r) in
        mkRun (outcome r') (final r') (steps r ++ steps r')
    | Thrown => mkRun Thrown (final r) (steps r)
    | OutOfFuel => mkRun OutOfFuel (final r) (steps r)
    end.

Definition get : M Store := fun s => mkRun (Returned s) s [].

Definition modify (f : Store -> Store) : M unit :=
  fun s => mkRun (Returned tt) (f s) [f s].

Definition throw {A} : M A := fun s => mkRun Thrown s [].

Definition outOfFuel {A} : M A := fun s => mkRun OutOfFuel s [].

Notation "x <- m ;; k" := (bind m (fun x => k))
  (at level 61, m at next level, right associativity).
Notation "m ;;; k" := (bind m (fun _ => k))
  (at level 61, right associativity).

(** Field writes. *)
Definition set_parent (n : ref) (p : option ref) : M unit :=
  modify (fun s => mkStore (update (parent s) n p) (index s) (children s) (effects s)).

Definition set_index (n : ref) (i : nat) : M unit :=
  modify (fun s => mkStore (parent s) (update (index s) n i) (children s) (effects s)).

Definition set_children (n : ref) (cs : option (list ref)) : M unit :=
  modify (fun s => mkStore (parent s) (index s) (update (children s) n cs) (effects s)).

Definition effect (e : Effect) : M unit :=
  modify (fun s => mkStore (parent s) (index s) (children s) (effects s ++ [e])).

(** [array.forEach((item, n) => ...)] *)
Fixpoint forEach (items : list ref) (n : nat) (body : ref -> nat -> M unit) : M unit :=
  match items with
  | [] => ret tt
  | item :: rest => body item n ;;; forEach rest (S n) body
  end.

(** [getParent()] *)
Definition getParent (n : ref) : M (option ref) :=
  s <- get ;; ret (parent s n).

(** [getChildren()]: [this.children || []] *)
Definition getChildren (this : ref) : M (list ref) :=
  s <- get ;;
  ret (match children s this with Some cs => cs | None => [] end).

(** [this.getChildren().push(child)]: with no array of its own the push
    lands on the fresh [[]] and is lost. *)
Definition push (this child : ref) : M unit :=
  s <- get ;;
  match children s this with
  | Some cs => set_children this (Some (cs ++ [child]))
  | None => ret tt
  end.

(** [_setChildrenIndices()] *)
Definition _setChildrenIndices (this : ref) : M unit :=
  s <- get ;;
  match children s this with
  | Some cs => forEach cs 0 (fun child n => set_index child n)
  | None => ret tt
  end ;;;
  effect (_requestDraw this).

(** [array.splice(i, 1)] *)
Definition splice (cs : list ref) (i : nat) : list ref :=
  firstn i cs ++ skipn (S i) cs.

(** Modelled from the spec: [Node.remove()] is in Node.ts.  The
    specification says a node "is detached via removal (clears
    parent/index)", that a change of the sequence restores the indices
    before it returns, and that [index] is the node's re-lookup key in its
    parent; so the node is taken out of its parent's sequence at its
    index, the parent renumbers with [_setChildrenIndices], and the
    node's parent and index are cleared. *)
Definition remove (n : ref) : M unit :=
  s <- get ;;
  match parent s n with
  | Some p =>
      match children s p with
      | Some cs =>
          set_children p (Some (splice cs (index s n))) ;;;
          _setChildrenIndices p
      | None => ret tt
      end
  | None => ret tt
  end ;;;
  set_parent n None ;;;
  set_index n 0.

(** Modelled from the spec: [Node.moveTo(container)] is in Node.ts; the
    specification words it as "detach from old parent, reattach here". *)
Definition moveTo (add : ref -> list ref -> M unit) (n newContainer : ref) : M unit :=
  remove n ;;; add newContainer [n].

Section WithValidation.
(** The abstract hook [_validateAdd(node)]: whether the concrete
    container lets the call return ([true]) or throws. *)
Variable accepts : ref -> ref -> bool.

Definition _validateAdd (this child : ref) : M unit :=
  if accepts this child then ret tt else throw.

(** [add(...children)].  The method calls itself for each of several
    arguments and, through [moveTo], for a child that has a parent;
    [fuel] bounds the depth of these calls. *)
Fixpoint add (fuel : nat) (this : ref) (args : list ref) {struct fuel} : M unit :=
  match fuel with
  | 0 => outOfFuel
  | S fuel' =>
      match args with
      | _ :: _ :: _ => forEach args 0 (fun arg _ => add fuel' this [arg])
      | [] => throw
      | [child] =>
          p <- getParent child ;;
          match p with
          | Some _ => moveTo (add fuel') child this
          | None =>
              _validateAdd this child ;;;
              effect (_clearCaches child) ;;;
              cs <- getChildren this ;;
              set_index child (List.length cs) ;;;
              set_parent child (Some this) ;;;
              push this child ;;;
              effect (_fire_add this child) ;;;
              effect (_requestDraw this)
          end
      end
  end.

(** [removeChildren()] *)
Definition removeChildren (this : ref) : M unit :=
  cs <- getChildren this ;;
  forEach cs 0 (fun child _ =>
    set_parent child None ;;; set_index child 0 ;;; remove child) ;;;
  set_children this (Some []).

(** The operations a client interleaves. *)
Inductive Op :=
| op_add (this : ref) (args : list ref)
| op_remove (n : ref)
| op_removeChildren (this : ref).

Definition runOp (fuel : nat) (op : Op) : M unit :=
  match op with
  | op_add this args => add fuel this args
  | op_remove n => remove n
  | op_removeChildren this => removeChildren this
  end.

(** The store after each operation of a sequence; an operation that
    throws leaves the store it reached. *)
Fixpoint runOps (fuel : nat) (ops : list Op) (s : Store) : list Store :=
  match ops with
  | [] => []
  | op :: rest =>
      let s' := final (runOp fuel op s) in
      s' :: runOps fuel rest s'
  end.

End WithValidation.

(** I1: every child at position [i] of a container [C] has [C] as its
    parent and [i] as its index. *)
Definition I1 (s : Store) : Prop :=
  forall C cs i K,
    children s C = Some cs ->
    nth_error cs i = Some K ->
    parent s K = Some C /\ index s K = i.

(** [K] sits in the sequence of its recorded parent [P], at its recorded
    index. *)
Definition attached (s : Store) (K P : ref) : Prop :=
  parent s K = Some P /\
  exists cs, children s P = Some cs /\ nth_error cs (index s K) = Some K.

(** In the sequences [c], [K] is held by at most one container, at most
    once. *)
Definition at_most_one_owner (c : ref -> option (list ref)) (K : ref) : Prop :=
  forall C D cs ds i j,
    c C = Some cs -> nth_error cs i = Some K ->
    c D = Some ds -> nth_error ds j = Some K ->
    C = D /\ i = j.

(** [K] is in the sequence of no container. *)
Definition no_owner (c : ref -> option (list ref)) (K : ref) : Prop :=
  forall C cs, c C = Some cs -> ~ In K cs.

(** The index map after [cs.forEach((child, n) => child.index = n)],
    counting from [n]. *)
Fixpoint renumber (idx : ref -> nat) (cs : list ref) (n : nat) : ref -> nat :=
  match cs with
  | [] => idx
  | c :: rest => renumber (update idx c n) rest (S n)
  end.

(** The sequences once [n] has been taken out of its parent's. *)
Definition detached (s : Store) (n : ref) : ref -> option (list ref) :=
  match parent s n with
  | Some p =>
      match children s p with
      | Some cs => update (children s) p (Some (splice cs (index s n)))
      | None => children s
      end
  | None => children s
  end.

(** The position in [cs] of the element at position [i] of [splice cs j]. *)
Definition unsplice (j i : nat) : nat := if i <? j then i else S i.

(** The index map once [n] has been taken out and its parent renumbered. *)
Definition detached_index (s : Store) (n : ref) : ref -> nat :=
  update
    match parent s n with
    | Some p =>
        match children s p with
        | Some cs => renumber (index s) (splice cs (index s n)) 0
        | None => index s
        end
    | None => index s
    end n 0.

(** The sequences once [child] has been pushed on the sequence of [this]. *)
Definition pushed (c : ref -> option (list ref)) (this child : ref)
  : ref -> option (list ref) :=
  match c this with
  | Some cs => update c this (Some (cs ++ [child]))
  | None => c
  end.

(** *** Worked stores *)

(** Every node detached, every container with an empty child array. *)
Definition emptyStore : Store :=
  mkStore (fun _ => None) (fun _ => 0) (fun _ => Some []) [].

(** A validation hook: container 1 takes no child, the others take any. *)
Definition pickyAccepts : ref -> ref -> bool :=
  fun this _ => negb (this =? 1).

(** Node 2 added to container 0. *)
Definition relocationStore : Store :=
  final (add pickyAccepts 3 0 [2] emptyStore).

End Mutation.

(** ** The loops, exposed for reasoning *)

Section Loops.
Context {S : Type} (fn : Node -> S -> bool * S).

(** The [for ... of] loop of [_descendants], over the children that remain. *)
Fixpoint descendants_loop (children : list Node) (s : S) {struct children}
  : bool * S :=
  match children with
  | [] => (false, s)
  | child :: rest =>
      let (shouldStop, s1) := fn child s in
      if shouldStop then (true, s1)
      else if negb (hasChildren child) then descendants_loop rest s1
      else
        let (shouldStop', s2) := _descendants fn child s1 in
        if shouldStop' then (true, s2) else descendants_loop rest s2
  end.

(** Calling [fn] on the nodes of a sequence, one after the other, until it
    asks to stop. *)
Fixpoint until_stop (nodes : list Node) (s : S) : bool * S :=
  match nodes with
  | [] => (false, s)
  | n :: rest =>
      let (shouldStop, s1) := fn n s in
      if shouldStop then (true, s1) else until_stop rest s1
  end.

End Loops.

(** ** The save/restore discipline of a context *)

(** Modelled from the spec: the drawing surface is outside src/; the
    specification speaks of its "LIFO save/restore discipline".  A context
    keeps the states it saved on a stack: [restore] undoes the most recent
    [save] that is still pending, and does nothing when there is none.
    [pair_saves] reads a log from position [pos] with the
    positions of the pending saves, innermost first, and returns each
    [restore] paired with its [save], as (position of the save, position of
    the restore), with the saves left pending. *)
Fixpoint pair_saves (events : list Event) (pos : nat) (pending : list nat)
  : list (nat * nat) * list nat :=
  match events with
  | [] => ([], pending)
  | ctx _ save :: rest => pair_saves rest (S pos) (pos :: pending)
  | ctx _ restore :: rest =>
      match pending with
      | [] => pair_saves rest (S pos) []
      | s :: pending' =>
          let (pairs, left) := pair_saves rest (S pos) pending' in
          ((s, pos) :: pairs, left)
      end
  | _ :: rest => pair_saves rest (S pos) pending
  end.

Definition save_restore_pairs (events : list Event) : list (nat * nat) :=
  fst (pair_saves events 0 []).

(** A log that undoes every save it makes and no other. *)
Definition balanced (events : list Event) : Prop :=
  forall pos pending, snd (pair_saves events pos pending) = pending.

(** ** Vocabulary for the statements about drawing *)

Section DrawingVocabulary.
Context `{NodeBase}.

(** The cached bitmap a pass looks for. *)
Definition cachedFor (drawMethod : DrawMethod) (d : NodeData) : option Bitmap :=
  match _getCanvasCache d with
  | Some cc => match drawMethod with drawScene_ => scene cc | drawHit_ => hit cc end
  | None => None
  end.

(** The canvas a pass draws on: the one given, else the layer's. *)
Definition resolveCanvas (drawMethod : DrawMethod) (d : NodeData)
           (can : option Canvas) : option Canvas :=
  match can with
  | Some c => Some c
  | None =>
      option_map (match drawMethod with drawScene_ => getCanvas | drawHit_ => hitCanvas end)
                 (getLayer d)
  end.

(** The test a pass makes before it draws anything. *)
Definition passesGate (drawMethod : DrawMethod) (d : NodeData)
           (canvas : option Canvas) (top : option NodeData) : bool :=
  match drawMethod with
  | drawScene_ =>
      isVisible d || match canvas with Some c => isCache c | None => false end
  | drawHit_ => shouldDrawHit d top
  end.

(** Replaying the cached bitmap of a pass. *)
Definition replay (drawMethod : DrawMethod) (d : NodeData) (top : option NodeData)
  : list ContextCall :=
  [save; transform (getAbsoluteTransform d top);
   match drawMethod with
   | drawScene_ => _drawCachedSceneCanvas (_id d)
   | drawHit_ => _drawCachedHitCanvas (_id d)
   end;
   restore].

(** The calls of [_drawChildren] around the children, on canvas [c]. *)
Definition clipPre (c : Canvas) (d : NodeData) (top : option NodeData) : list Event :=
  if hasClip d then map (ctx c) (clipBlock d top) else [].

Definition compositePre (c : Canvas) (d : NodeData) (drawMethod : DrawMethod)
           (top : option NodeData) : list Event :=
  if hasComposition d drawMethod top
  then [ctx c save; ctx c (_applyGlobalCompositeOperation (_id d))]
  else [].

Definition compositePost (c : Canvas) (d : NodeData) (drawMethod : DrawMethod)
           (top : option NodeData) : list Event :=
  if hasComposition d drawMethod top then [ctx c restore] else [].

Definition clipPost (c : Canvas) (d : NodeData) : list Event :=
  if hasClip d then [ctx c restore] else [].

(** The events of the clip block after its [save]. *)
Definition clipInner (c : Canvas) (d : NodeData) (top : option NodeData) : list Event :=
  map (ctx c) (tl (clipBlock d top)).

(** The events between the clip block and the clip restore. *)
Definition compositeBlock (c : Canvas) (d : NodeData) (drawMethod : DrawMethod)
           (top : option NodeData) (kids : list Event) : list Event :=
  compositePre c d drawMethod top ++ kids ++ compositePost c d drawMethod top.

End DrawingVocabulary.

(** ** A concrete set of collaborators, for worked scenes *)

(** Modelled from the spec: [Node._isMatch] on a string follows the selector
    grammar of the specification: comma-separated clauses, each [#id],
    [.name] or a bare type or class name, a node matching when it matches
    any clause.  Blanks between clauses are dropped. *)
Fixpoint remove_spaces (s : string) : string :=
  match s with
  | EmptyString => EmptyString
  | String c rest =>
      if Ascii.eqb c " "%char then remove_spaces rest else String c (remove_spaces rest)
  end.

Fixpoint split_commas (s : string) : list string :=
  match s with
  | EmptyString => [EmptyString]
  | String c rest =>
      if Ascii.eqb c ","%char then EmptyString :: split_commas rest
      else match split_commas rest with
           | [] => [String c EmptyString]
           | clause :: clauses => String c clause :: clauses
           end
  end.

Definition clause_matches (d : NodeData) (clause : string) : bool :=
  match clause with
  | String "#"%char literal => String.eqb (attr_id (attrs d)) literal
  | String "."%char literal => String.eqb (attr_name (attrs d)) literal
  | _ => String.eqb (className d) clause || String.eqb (nodeType d) clause
  end.

Definition grammar_isMatch (n : Node) (selector : Selector) : bool :=
  match selector with
  | selFunction f => f n
  | selString s => existsb (clause_matches (data n)) (split_commas (remove_spaces s))
  end.

Definition identityMatrix : Matrix :=
  mkMatrix 1%float 0%float 0%float 1%float 0%float 0%float.

(** Collaborators of a scene with no transforms and no layer: a node is
    visible when its own flag says so, a shape reports the rectangle
    [shapeRect] gives for its [_id], and the base cache clear drops the
    named entry of the attribute cache (every entry when no name is given)
    and leaves the bitmap slot alone. *)
Definition sceneBase (shapeRect : nat -> IRect) : NodeBase :=
  {| _isMatch := grammar_isMatch;
     isVisible := fun d => visible (attrs d);
     _isVisible := fun d _ => visible (attrs d);
     shouldDrawHit := fun d _ => visible (attrs d);
     getLayer := fun _ => None;
     getAbsoluteTransform := fun _ _ => identityMatrix;
     invert := fun m => m;
     Shape_getClientRect := fun d _ => shapeRect (_id d);
     _transformedRect := fun _ r _ => r;
     Node_clearSelfAndDescendantCache := fun d attr =>
       mkNodeData (_id d) (className d) (nodeType d) (attrs d) (canvasCache d)
         match attr with
         | Some a => filter (fun k => negb (String.eqb k a)) (attrCache d)
         | None => []
         end |}.

Definition plainAttrs (visible : bool) : Attrs :=
  mkAttrs EmptyString EmptyString visible None None None None None "source-over".

Definition namedAttrs (id name : string) : Attrs :=
  mkAttrs id name true None None None None None "source-over".

Definition group (i : nat) (a : Attrs) (cache : option CanvasCache) (cs : list Node) : Node :=
  Container (mkNodeData i "Group"%string "Group"%string a cache ["absoluteTransform"%string]) cs.

Definition rectShape (i : nat) (a : Attrs) : Node :=
  Shape (mkNodeData i "Rect"%string "Shape"%string a None ["absoluteTransform"%string]).

Definition noRects : nat -> IRect := fun _ => zeroRect.

Definition sceneCanvas : Canvas := mkCanvas 0 false.

(** *** Worked scenes *)

(** A layer-like group holding a nested group and two more shapes:
<<
   0 -+- 1 -+- 2  (id "x")
      |     +- 3  (name "bar")
      +- 4  (id "foo")
      +- 5
>> *)
Definition n2 : Node := rectShape 2 (namedAttrs "x" EmptyString).
Definition n3 : Node := rectShape 3 (namedAttrs EmptyString "bar").
Definition n4 : Node := rectShape 4 (namedAttrs "foo" EmptyString).
Definition n5 : Node := rectShape 5 (namedAttrs EmptyString EmptyString).
Definition n1 : Node := group 1 (namedAttrs EmptyString EmptyString) None [n2; n3].
Definition searchScene : Node := group 0 (namedAttrs EmptyString EmptyString) None [n1; n4; n5].

(** A group with a scene and a hit bitmap, visible or not, over one shape. *)
Definition cachedGroup (visible : bool) : Node :=
  group 10 (plainAttrs visible) (Some (mkCanvasCache (Some 7) (Some 8))) [n5].

(** A group whose first child is cached and holds a shape, and whose second
    child is a plain shape. *)
Definition nestedCacheScene : Node :=
  group 20 (plainAttrs true) None [cachedGroup true; n4].

(** Scenario A: shapeA visible with rectangle (0,0,10,10), shapeB not
    visible with rectangle (5,5,10,10). *)
Definition scenarioRects : nat -> IRect :=
  fun i =>
    match i with
    | 31 => mkRect 0%float 0%float 10%float 10%float
    | 32 => mkRect 5%float 5%float 10%float 10%float
    | _ => zeroRect
    end.
Definition shapeA : NodeData :=
  mkNodeData 31 "Rect"%string "Shape"%string (plainAttrs true) None [].
Definition shapeB : NodeData :=
  mkNodeData 32 "Rect"%string "Shape"%string (plainAttrs false) None [].
Definition scenarioA : Node :=
  group 30 (plainAttrs true) None [Shape shapeA; Shape shapeB].

(** A group whose only shape is not visible. *)
Definition hiddenScene : Node :=
  group 40 (plainAttrs true) None [Shape shapeB].

(** Modelled from the spec: [Node._transformedRect] is in Node.ts; the
    specification says the local rectangle is "transformed into the
    requested coordinate frame ... via the standard absolute-transform
    chain".  Collaborators of a scene whose nodes are all translated by
    ([dx], [dy]) in the frame asked for: the chain is that one translation,
    under which a rectangle moves and keeps its size.  Everything else is
    as in [sceneBase]. *)
Definition translatedBase (dx dy : number) (shapeRect : nat -> IRect) : NodeBase :=
  {| _isMatch := grammar_isMatch;
     isVisible := fun d => visible (attrs d);
     _isVisible := fun d _ => visible (attrs d);
     shouldDrawHit := fun d _ => visible (attrs d);
     getLayer := fun _ => None;
     getAbsoluteTransform := fun _ _ => mkMatrix 1%float 0%float 0%float 1%float dx dy;
     invert := fun m =>
       mkMatrix 1%float 0%float 0%float 1%float (0 - m4 m)%float (0 - m5 m)%float;
     Shape_getClientRect := fun d _ => shapeRect (_id d);
     _transformedRect := fun _ r _ =>
       mkRect (x r + dx)%float (y r + dy)%float (width r) (height r);
     Node_clearSelfAndDescendantCache := fun d attr =>
       mkNodeData (_id d) (className d) (nodeType d) (attrs d) (canvasCache d)
         match attr with
         | Some a => filter (fun k => negb (String.eqb k a)) (attrCache d)
         | None => []
         end |}.

(** A group with no children. *)
Definition emptyGroup : Node := group 41 (plainAttrs true) None [].

(** A group with a clip rectangle of width 0 and a 'multiply' composite
    operation, over one shape; and the same group with a clip that applies. *)
Definition clippedData (w : number) : NodeData :=
  mkNodeData 50 "Group"%string "Group"%string
    (mkAttrs EmptyString EmptyString true (Some 20%float) (Some 20%float) (Some w) (Some 20%float)
             None "multiply")
    None [].

(** ** More of Container.ts: the remaining readers of the tree *)

(** [getChildren(filterFunc)]: without a filter the child array itself, with
    one the children it accepts, pushed on [results] in a [forEach]. *)
Definition getChildren_filterFunc (filterFunc : option (Node -> bool)) (this : Node)
  : list Node :=
  match filterFunc with
  | None => getChildren this
  | Some f =>
      fold_left (fun results child => if f child then results ++ [child] else results)
                (getChildren this) []
  end.

(** The number of nodes of a subtree. *)
Fixpoint node_size (n : Node) : nat :=
  match n with
  | Shape _ => 1
  | Container _ cs => S (list_sum (map node_size cs))
  end.

Section Intersections.
Context `{NodeBase}.

(** The argument [pos] of [getAllIntersections], and [shape.intersects(pos)]
    of Shape.ts, whose body is outside src/. *)
Variable Pos : Type.
Variable intersects : NodeData -> Pos -> bool.

(** [getAllIntersections(pos)] *)
Definition getAllIntersections (this : Node) (pos : Pos) : list Node :=
  fold_left
    (fun arr shape =>
       if isVisible (data shape) && intersects (data shape) pos
       then arr ++ [shape] else arr)
    (find this (selString "Shape")) [].

End Intersections.

(** An event of a pass [drawMethod] that went where the caller asked: a
    context call on canvas [c], or the draw method of the pass on a shape,
    handed [c] and [top]. *)
Definition sent_to (drawMethod : DrawMethod) (c : Canvas) (top : option NodeData)
           (e : Event) : Prop :=
  match e with
  | ctx c' _ => c' = c
  | shapeDraw m _ can tp => m = drawMethod /\ can = Some c /\ tp = option_map _id top
  end.

(** The events only the scene pass may produce. *)
Definition scene_only (e : Event) : bool :=
  match e with
  | ctx _ (_applyGlobalCompositeOperation _) => true
  | ctx _ (_drawCachedSceneCanvas _) => true
  | shapeDraw drawScene_ _ _ _ => true
  | _ => false
  end.

Section ContextNeeds.
Context `{NodeBase}.

(** Whether a draw call of a container calls the context itself: to replay a
    bitmap, to clip, or to set a composite operation. *)
Definition needsContext (drawMethod : DrawMethod) (d : NodeData) (top : option NodeData)
  : bool :=
  match cachedFor drawMethod d with
  | Some _ => true
  | None => hasClip d || hasComposition d drawMethod top
  end.

End ContextNeeds.

(** ** More of Container.ts on the object store: [isAncestorOf] *)

Module MutationMore.
Import Mutation.

(** The loop of [isAncestorOf]: [while (parent)], with [parent._id ===
    this._id] read as equality of references.  The chain of parents of a
    store may be cyclic; [fuel] bounds the turns and [None] says it ran out. *)
Fixpoint isAncestorOf_loop (s : Store) (fuel : nat) (this : ref) (parent : option ref)
         {struct fuel} : option bool :=
  match parent with
  | None => Some false
  | Some p =>
      if p =? this then Some true
      else
        match fuel with
        | 0 => None
        | S fuel' => isAncestorOf_loop s fuel' this (Mutation.parent s p)
        end
  end.

(** [isAncestorOf(node)] *)
Definition isAncestorOf (s : Store) (fuel : nat) (this node : ref) : option bool :=
  isAncestorOf_loop s fuel this (Mutation.parent s node).

(** The chain of parents: [up s k p] is [p] after [k] more calls of
    [getParent()]. *)
Fixpoint up (s : Store) (k : nat) (p : option ref) : option ref :=
  match k with
  | 0 => p
  | S k' =>
      match p with
      | Some q => up s k' (Mutation.parent s q)
      | None => None
      end
  end.

(** A store with the chain 4 -> 3 -> 0 of parents. *)
Definition chainStore : Store :=
  final (add pickyAccepts 3 3 [4] (final (add pickyAccepts 3 0 [3] emptyStore))).

(** Container 0 holds nodes 5 and 6, whose indices are stale. *)
Definition staleStore : Store :=
  mkStore (fun k => if (k =? 5) || (k =? 6) then Some 0 else None)
          (fun _ => 7)
          (fun k => if k =? 0 then Some [5; 6] else None)
          [].

(** Two nodes that are each other's parent: a chain that never ends. *)
Definition cyclicStore : Store :=
  mkStore (fun k => if k =? 1 then Some 2 else if k =? 2 then Some 1 else None)
          (fun _ => 0) (fun _ => None) [].

End MutationMore.

(* ================================================================== *)
(** * Part II -- the theorems *)
(* ================================================================== *)

(** ** Induction on the scene tree *)

Lemma Node_nested_ind (P : Node -> Prop) :
  (forall d, P (Shape d)) ->
  (forall d cs, Forall P cs -> P (Container d cs)) ->
  forall n, P n.
Proof.
  intros HS HC. fix IH 1. intros [d | d cs].
  - apply HS.
  - apply HC. induction cs as [| c cs IHcs]; constructor; [apply IH | exact IHcs].
Qed.

(** ** Search *)

Section SearchFacts.
Context {S : Type} (fn : Node -> S -> bool * S).

Lemma _descendants_loop (this : Node) (s : S) :
  _descendants fn this s = descendants_loop fn (getChildren this) s.
Proof. destruct this; reflexivity. Qed.

Lemma until_stop_app (l1 l2 : list Node) (s : S) :
  until_stop fn (l1 ++ l2) s =
  let (b, s1) := until_stop fn l1 s in
  if b then (true, s1) else until_stop fn l2 s1.
Proof.
  revert s. induction l1 as [| n l1 IH]; intros s; simpl.
  - reflexivity.
  - destruct (fn n s) as [b s1]. destruct b; [reflexivity | apply IH].
Qed.

Lemma hasChildren_false_preorder (n : Node) :
  hasChildren n = false -> preorder n = [].
Proof.
  destruct n as [d | d cs]; simpl; [reflexivity |].
  destruct cs; [reflexivity | discriminate].
Qed.

(** The walk is the short-circuit iteration over the pre-order. *)
Lemma _descendants_preorder (this : Node) :
  forall s, _descendants fn this s = until_stop fn (preorder this) s.
Proof.
  induction this as [d | d cs IH] using Node_nested_ind; intros s.
  - reflexivity.
  - rewrite _descendants_loop. simpl getChildren. simpl preorder.
    revert s. induction IH as [| c cs Hc _ IHcs]; intros s; simpl.
    + reflexivity.
    + destruct (fn c s) as [b s1]. destruct b; [reflexivity |].
      rewrite until_stop_app.
      destruct (hasChildren c) eqn:Hh; simpl.
      * rewrite Hc. destruct (until_stop fn (preorder c) s1) as [b' s2].
        destruct b'; [reflexivity | apply IHcs].
      * rewrite (hasChildren_false_preorder c Hh). simpl. apply IHcs.
Qed.

(** Recording the nodes visited changes neither the stop signal nor the
    state the callback builds. *)
Lemma logged_same_result (l : list Node) :
  forall log s,
    fst (until_stop (logged fn) l (log, s)) = fst (until_stop fn l s) /\
    snd (snd (until_stop (logged fn) l (log, s))) = snd (until_stop fn l s).
Proof.
  induction l as [| n l IH]; intros log s; simpl.
  - split; reflexivity.
  - unfold logged at 1 3. simpl. destruct (fn n s) as [b s1].
    destruct b; [split; reflexivity | apply IH].
Qed.

End SearchFacts.

Lemma logged_descendants {S : Type} (fn : Node -> S -> bool * S)
      (this : Node) (log : list Node) (s : S) :
  fst (_descendants (logged fn) this (log, s)) = fst (_descendants fn this s) /\
  snd (snd (_descendants (logged fn) this (log, s))) = snd (_descendants fn this s).
Proof. rewrite !_descendants_preorder. apply logged_same_result. Qed.

Section FindFacts.
Context `{NodeBase}.
Variable selector : Selector.

Lemma find_as_until (this : Node) (one : bool) :
  _generalFind this selector one =
  snd (until_stop (findCallback selector one) (preorder this) []).
Proof. unfold _generalFind. now rewrite _descendants_preorder. Qed.


(** Without the early stop the matches are kept, in order. *)
Lemma until_all_plain (l : list Node) :
  forall acc,
    until_stop (findCallback selector false) l acc = (false, acc ++ filter (matching selector) l).
Proof.
  induction l as [| n l IH]; intros acc; simpl.
  - now rewrite app_nil_r.
  - unfold findCallback at 1. fold (matching selector n). rewrite andb_false_r. rewrite IH.
    destruct (matching selector n); simpl; now rewrite <- ?app_assoc.
Qed.

(** Nodes that do not match leave the result as it is and do not stop the
    walk. *)
Lemma until_no_match (one : bool) (l : list Node) :
  (forall n, In n l -> matching selector n = false) ->
  forall log acc,
    until_stop (logged (findCallback selector one)) l (log, acc) = (false, (log ++ l, acc)) /\
    until_stop (findCallback selector one) l acc = (false, acc).
Proof.
  induction l as [| n l IH]; intros Hno log acc; simpl.
  - now rewrite app_nil_r.
  - unfold logged at 1, findCallback at 1 3. simpl. fold (matching selector n).
    rewrite (Hno n (or_introl eq_refl)). simpl.
    destruct (IH (fun k Hk => Hno k (or_intror Hk)) (log ++ [n]) acc) as [E1 E2].
    rewrite E1, E2. now rewrite <- app_assoc.
Qed.

(** With the early stop the walk ends on the first match. *)
Lemma until_first (before after : list Node) (m : Node) :
  (forall n, In n before -> matching selector n = false) ->
  matching selector m = true ->
  until_stop (logged (findCallback selector true)) (before ++ m :: after) ([], []) =
    (true, (before ++ [m], [m])) /\
  until_stop (findCallback selector true) (before ++ m :: after) [] = (true, [m]).
Proof.
  intros Hno Hm. rewrite !until_stop_app.
  destruct (until_no_match true before Hno [] []) as [E1 E2].
  rewrite E1, E2. simpl.
  unfold logged, findCallback. simpl. fold (matching selector m). rewrite Hm. simpl.
  split; reflexivity.
Qed.

(** The first element a filter keeps splits the list. *)
Lemma filter_first (l : list Node) (m : Node) (rest : list Node) :
  filter (matching selector) l = m :: rest ->
  exists before after,
    l = before ++ m :: after /\
    (forall n, In n before -> matching selector n = false) /\
    matching selector m = true /\
    filter (matching selector) after = rest.
Proof.
  induction l as [| n l IH]; simpl; [discriminate |].
  destruct (matching selector n) eqn:Hn; intros E.
  - inversion E; subst. exists [], l. repeat split; auto. intros k [].
  - destruct (IH E) as (before & after & -> & Hno & Hm & Hrest).
    exists (n :: before), after. repeat split; auto.
    intros k [<- | Hk]; auto.
Qed.

End FindFacts.


(** C10.  When a selector matches no node below [this], [findOne] returns
    the absent value and [find] returns the empty array; the model of both is
    total, so neither raises. *)
Theorem C10_no_match_is_absent `{NodeBase} :
  forall (this : Node) (selector : Selector),
    (forall n, In n (preorder this) -> _isMatch n selector = false) ->
    findOne this selector = None /\ find this selector = [].
Proof.
  intros this selector Hno.
  unfold findOne, find. rewrite !find_as_until.
  destruct (until_no_match selector true (preorder this) Hno [] []) as [_ E1].
  destruct (until_no_match selector false (preorder this) Hno [] []) as [_ E2].
  rewrite E1, E2. split; reflexivity.
Qed.

(** ** Drawing *)

Section DrawingFacts.
Context `{NodeBase}.

Lemma forEach_draw_total (f : Node -> option (list Event)) (cs : list Node) :
  Forall (fun child => exists l, f child = Some l) cs ->
  exists kids, forEach_draw f cs = Some kids.
Proof.
  induction 1 as [| c cs [l Hl] _ [kids Hk]]; simpl.
  - now exists [].
  - rewrite Hl, Hk. now eexists.
Qed.

(** The events of [_drawChildren] on a canvas, once the children's are
    known. *)
Lemma _drawChildren_events childDraw d cs drawMethod c top kids :
  forEach_draw (fun child => childDraw child (Some c) top) cs = Some kids ->
  _drawChildren childDraw d cs drawMethod (Some c) top =
  Some (clipPre c d top ++ compositePre c d drawMethod top ++ kids
        ++ compositePost c d drawMethod top ++ clipPost c d).
Proof.
  intros Hk. unfold _drawChildren, clipPre, compositePre, compositePost, clipPost.
  rewrite Hk.
  destruct (hasClip d), (hasComposition d drawMethod top); reflexivity.
Qed.

(** With a canvas in hand no call on a context can fail. *)
Lemma draw_total (drawMethod : DrawMethod) (this : Node) :
  forall c top, exists l, draw drawMethod this (Some c) top = Some l.
Proof.
  induction this as [d | d cs IH] using Node_nested_ind; intros c top.
  - simpl. now eexists.
  - assert (Hkids : exists kids,
               forEach_draw (fun child => draw drawMethod child (Some c) top) cs = Some kids).
    { apply forEach_draw_total. eapply Forall_impl; [| exact IH].
      intros child Hc. apply Hc. }
    destruct Hkids as [kids Hkids].
    destruct drawMethod; simpl; unfold drawScene, drawHit, _getCanvasCache.
    + destruct (negb (isVisible d) && negb (isCache c)); [now eexists |].
      destruct (canvasCache d) as [[[b |] h] |]; simpl; try (now eexists);
        erewrite _drawChildren_events by exact Hkids; now eexists.
    + destruct (negb (shouldDrawHit d top)); [now eexists |].
      destruct (canvasCache d) as [[sc [b |]] |]; simpl; try (now eexists);
        erewrite _drawChildren_events by exact Hkids; now eexists.
Qed.

Lemma children_draw_total (drawMethod : DrawMethod) (cs : list Node) c top :
  exists kids,
    forEach_draw (fun child => draw drawMethod child (Some c) top) cs = Some kids.
Proof.
  apply forEach_draw_total. apply Forall_forall. intros child _. apply draw_total.
Qed.

(** A container with a bitmap for the pass never looks at its children. *)
Lemma cached_draw_ignores_children drawMethod d cs can top b :
  cachedFor drawMethod d = Some b ->
  draw drawMethod (Container d cs) can top = draw drawMethod (Container d []) can top.
Proof.
  unfold cachedFor, _getCanvasCache. intros Hc.
  destruct drawMethod; simpl; unfold drawScene, drawHit, _getCanvasCache;
    destruct (canvasCache d) as [[sc hc] |]; simpl in *; try discriminate;
    rewrite Hc; reflexivity.
Qed.

(** *** Saves and restores pair up *)

Lemma pair_saves_app (a b : list Event) :
  forall pos pending,
    pair_saves (a ++ b) pos pending =
    (fst (pair_saves a pos pending)
       ++ fst (pair_saves b (pos + List.length a) (snd (pair_saves a pos pending))),
     snd (pair_saves b (pos + List.length a) (snd (pair_saves a pos pending)))).
Proof.
  induction a as [| e a IH]; intros pos pending.
  - simpl. rewrite Nat.add_0_r. now destruct (pair_saves b pos pending).
  - assert (Hs : pos + List.length (e :: a) = S pos + List.length a)
      by (simpl; lia).
    rewrite Hs.
    destruct e as [cv call | m sh cv tp]; [destruct call |]; simpl;
      try apply IH.
    destruct pending as [| s pending']; [apply IH |].
    rewrite (IH (S pos) pending').
    destruct (pair_saves a (S pos) pending'). reflexivity.
Qed.

Lemma balanced_nil : balanced [].
Proof. intros pos pending. reflexivity. Qed.

Lemma balanced_app (a b : list Event) : balanced a -> balanced b -> balanced (a ++ b).
Proof.
  intros Ha Hb pos pending. rewrite pair_saves_app. simpl. now rewrite Ha, Hb.
Qed.

(** A [save], a balanced log, a [restore]: the two pair up, after the pairs
    inside. *)
Lemma pair_saves_wrap (c c' : Canvas) (inner : list Event) :
  balanced inner ->
  forall pos pending,
    pair_saves (ctx c save :: inner ++ [ctx c' restore]) pos pending =
    (fst (pair_saves inner (S pos) (pos :: pending))
       ++ [(pos, S pos + List.length inner)],
     pending).
Proof.
  intros Hin pos pending. simpl. rewrite pair_saves_app. simpl.
  now rewrite (Hin (S pos) (pos :: pending)).
Qed.

Lemma balanced_wrap (c c' : Canvas) (inner : list Event) :
  balanced inner -> balanced (ctx c save :: inner ++ [ctx c' restore]).
Proof. intros Hin pos pending. now rewrite pair_saves_wrap. Qed.

Lemma forEach_draw_balanced (f : Node -> option (list Event)) (cs : list Node) :
  Forall (fun child => forall l, f child = Some l -> balanced l) cs ->
  forall kids, forEach_draw f cs = Some kids -> balanced kids.
Proof.
  induction 1 as [| child cs Hc _ IH]; intros kids Hk; simpl in Hk.
  - inversion Hk. apply balanced_nil.
  - destruct (f child) as [l |] eqn:Hl; [| discriminate].
    destruct (forEach_draw f cs) as [l' |]; [| discriminate].
    inversion Hk; subst. apply balanced_app; auto.
Qed.

Lemma clipInner_neutral c d top (rest : list Event) :
  forall pos pending,
    pair_saves (clipInner c d top ++ rest) pos pending
    = pair_saves rest (pos + 5) pending.
Proof.
  intros pos pending. unfold clipInner, clipBlock. simpl.
  replace (pos + 5) with (S (S (S (S (S pos))))) by lia.
  now destruct (clipFunc (attrs d)).
Qed.

Lemma compositeBlock_balanced c d drawMethod top kids :
  balanced kids -> balanced (compositeBlock c d drawMethod top kids).
Proof.
  intros Hk. unfold compositeBlock, compositePre, compositePost.
  destruct (hasComposition d drawMethod top).
  - change (balanced (ctx c save
                        :: (ctx c (_applyGlobalCompositeOperation (_id d)) :: kids)
                        ++ [ctx c restore])).
    apply balanced_wrap. intros pos pending. simpl. apply Hk.
  - simpl. now rewrite app_nil_r.
Qed.

(** The log of [_drawChildren], bracketed as the proofs read it. *)
Lemma drawChildren_log_shape c d drawMethod top kids :
  clipPre c d top ++ compositePre c d drawMethod top ++ kids
    ++ compositePost c d drawMethod top ++ clipPost c d
  = if hasClip d
    then ctx c save :: (clipInner c d top ++ compositeBlock c d drawMethod top kids)
                    ++ [ctx c restore]
    else compositeBlock c d drawMethod top kids.
Proof.
  unfold clipPre, clipPost, compositeBlock. destruct (hasClip d).
  - change (map (ctx c) (clipBlock d top)) with (ctx c save :: clipInner c d top).
    simpl. now rewrite <- !app_assoc.
  - simpl. now rewrite app_nil_r.
Qed.

Lemma clipPre_length c d top :
  List.length (clipPre c d top) = if hasClip d then 6 else 0.
Proof. unfold clipPre. now destruct (hasClip d). Qed.

Lemma drawChildren_log_balanced c d drawMethod top kids :
  balanced kids ->
  balanced (clipPre c d top ++ compositePre c d drawMethod top ++ kids
            ++ compositePost c d drawMethod top ++ clipPost c d).
Proof.
  intros Hk. pose proof (compositeBlock_balanced c d drawMethod top Hk) as Hb.
  rewrite drawChildren_log_shape. destruct (hasClip d).
  - apply balanced_wrap. intros pos pending. rewrite clipInner_neutral. apply Hb.
  - exact Hb.
Qed.

Lemma composite_pair c d drawMethod top kids :
  balanced kids ->
  hasComposition d drawMethod top = true ->
  forall pos pending,
    In (pos, pos + 2 + List.length kids)
       (fst (pair_saves (compositeBlock c d drawMethod top kids) pos pending)).
Proof.
  intros Hk Hc pos pending. unfold compositeBlock, compositePre, compositePost.
  rewrite Hc.
  change (In (pos, pos + 2 + List.length kids)
             (fst (pair_saves
                     (ctx c save
                        :: (ctx c (_applyGlobalCompositeOperation (_id d)) :: kids)
                        ++ [ctx c restore]) pos pending))).
  rewrite pair_saves_wrap by (intros q pd; simpl; apply Hk).
  simpl fst. apply in_or_app. right. left. f_equal. simpl. lia.
Qed.

(** On a canvas every draw call undoes the saves it makes. *)
Lemma draw_balanced (drawMethod : DrawMethod) (this : Node) :
  forall c top l, draw drawMethod this (Some c) top = Some l -> balanced l.
Proof.
  induction this as [d | d cs IH] using Node_nested_ind; intros c top l Hl.
  - simpl in Hl. inversion Hl. intros pos pending. reflexivity.
  - destruct (children_draw_total drawMethod cs c top) as [kids Hkids].
    assert (Hk : balanced kids).
    { eapply forEach_draw_balanced; [| exact Hkids].
      eapply Forall_impl; [| exact IH]. intros child Hc l'. apply Hc. }
    pose proof (drawChildren_log_balanced c d drawMethod top Hk) as Hlog.
    destruct drawMethod; simpl in Hl; unfold drawScene, drawHit, _getCanvasCache in Hl.
    + destruct (negb (isVisible d) && negb (isCache c));
        [inversion Hl; apply balanced_nil |].
      destruct (canvasCache d) as [[[b |] h] |]; simpl in Hl;
        try (inversion Hl; intros pos pending; reflexivity);
        erewrite _drawChildren_events in Hl by exact Hkids;
        inversion Hl; subst; exact Hlog.
    + destruct (negb (shouldDrawHit d top)); [inversion Hl; apply balanced_nil |].
      destruct (canvasCache d) as [[sc [b |]] |]; simpl in Hl;
        try (inversion Hl; intros pos pending; reflexivity);
        erewrite _drawChildren_events in Hl by exact Hkids;
        inversion Hl; subst; exact Hlog.
Qed.

End DrawingFacts.

(** C4, as amended.  What a container that holds a cached bitmap for the
    pass draws does not depend on its children: it never recurses into them.
    When moreover it has a canvas to draw on and passes the gate of the pass
    (scene: it is visible or the canvas is a cache canvas; hit:
    [shouldDrawHit(top)]), it replays the bitmap with exactly save, transform
    by its absolute transform relative to [top], blit, restore. *)
Theorem C4_cache_hit_replays `{NodeBase} :
  forall (drawMethod : DrawMethod) (d : NodeData)
         (can : option Canvas) (top : option NodeData) (b : Bitmap),
    cachedFor drawMethod d = Some b ->
    (forall cs cs',
        draw drawMethod (Container d cs') can top
        = draw drawMethod (Container d cs) can top) /\
    (forall cs canvas,
        resolveCanvas drawMethod d can = Some canvas ->
        passesGate drawMethod d (Some canvas) top = true ->
        draw drawMethod (Container d cs) can top
        = Some (map (ctx canvas) (replay drawMethod d top))).
Proof.
  intros drawMethod d can top b Hc. split.
  - intros cs cs'. rewrite (@cached_draw_ignores_children _ _ _ cs' _ _ _ Hc).
    rewrite (@cached_draw_ignores_children _ _ _ cs _ _ _ Hc). reflexivity.
  - intros cs canvas Hr Hg.
    unfold cachedFor, _getCanvasCache, resolveCanvas, passesGate in *.
    destruct drawMethod; simpl; unfold drawScene, drawHit, _getCanvasCache;
      destruct (canvasCache d) as [[sc hc] |]; simpl in *; try discriminate;
      rewrite Hc.
    + destruct can as [c |]; [inversion Hr; subst |]; simpl.
      * destruct (isVisible d), (isCache canvas); simpl in *; try discriminate; reflexivity.
      * rewrite Hr. destruct (isVisible d), (isCache canvas); simpl in *;
          try discriminate; reflexivity.
    + rewrite Hg. simpl.
      destruct can as [c |]; [inversion Hr; subst; reflexivity |].
      rewrite Hr. reflexivity.
Qed.

(** C6.  On a canvas, [_drawChildren] emits the clip block (if a clip
    applies), the composite save and operation (if a composition applies),
    the children's events in sequence order, then the composite restore (if
    applied) and after it the clip restore (if applied).  A composition
    applies exactly when the pass is the scene pass, the configured operation
    is not 'source-over', and [top] is not this container.  Read with the
    stack discipline of a context, the restore that follows the children
    undoes the composite save, and the last restore undoes the clip save. *)
Theorem C6_composite_conditions_and_restore_order `{NodeBase} :
  forall (d : NodeData) (cs : list Node) (drawMethod : DrawMethod)
         (c : Canvas) (top : option NodeData),
  exists kids log,
    forEach_draw (fun child => draw drawMethod child (Some c) top) cs = Some kids /\
    _drawChildren (draw drawMethod) d cs drawMethod (Some c) top = Some log /\
    log = clipPre c d top
          ++ (if hasComposition d drawMethod top
              then [ctx c save; ctx c (_applyGlobalCompositeOperation (_id d))]
              else [])
          ++ kids
          ++ (if hasComposition d drawMethod top then [ctx c restore] else [])
          ++ (if hasClip d then [ctx c restore] else []) /\
    (hasComposition d drawMethod top = true <->
       drawMethod = drawScene_ /\
       globalCompositeOperation (attrs d) <> "source-over"%string /\
       ~ (exists t, top = Some t /\ _id t = _id d)) /\
    (hasComposition d drawMethod top = true ->
     In (List.length (clipPre c d top),
         List.length (clipPre c d top) + 2 + List.length kids)
        (save_restore_pairs log)) /\
    (hasClip d = true ->
     In (0, List.length log - 1) (save_restore_pairs log)).
Proof.
  intros d cs drawMethod c top.
  destruct (children_draw_total drawMethod cs c top) as [kids Hk].
  assert (Hbal : balanced kids).
  { eapply forEach_draw_balanced; [| exact Hk].
    apply Forall_forall. intros child _ l Hl. eapply draw_balanced; eauto. }
  exists kids. eexists. split; [exact Hk |].
  split; [apply _drawChildren_events; exact Hk |].
  split; [reflexivity |]. split; [| split].
  - unfold hasComposition, selfCache. split.
    + intros Hc. apply andb_prop in Hc. destruct Hc as [Hc Hm].
      apply andb_prop in Hc. destruct Hc as [Hs Hg].
      repeat split.
      * destruct drawMethod; [reflexivity | discriminate].
      * intros E. rewrite E in Hg. discriminate.
      * intros (t & -> & Ht). rewrite Ht, Nat.eqb_refl in Hs. discriminate.
    + intros (-> & Hg & Ht).
      apply andb_true_intro. split; [apply andb_true_intro; split |]; auto.
      * destruct top as [t |]; [| reflexivity].
        destruct (Nat.eqb_spec (_id t) (_id d)) as [E | E]; [| reflexivity].
        exfalso. apply Ht. now exists t.
      * destruct (String.eqb_spec (globalCompositeOperation (attrs d)) "source-over");
          [contradiction | reflexivity].
  - intros Hc. unfold save_restore_pairs.
    rewrite drawChildren_log_shape, clipPre_length.
    destruct (hasClip d).
    + rewrite pair_saves_wrap.
      * cbn [fst]. apply in_or_app. left. rewrite clipInner_neutral.
        apply (composite_pair c d drawMethod top Hbal Hc 6 [0]).
      * intros pos pending. rewrite clipInner_neutral.
        now apply compositeBlock_balanced.
    + apply (composite_pair c d drawMethod top Hbal Hc 0 []).
  - intros Hclip. unfold save_restore_pairs.
    rewrite drawChildren_log_shape. rewrite Hclip.
    rewrite pair_saves_wrap.
    + cbn [fst]. apply in_or_app. right. left. f_equal.
      cbn [List.length]. rewrite !length_app. cbn [List.length]. lia.
    + intros pos pending. rewrite clipInner_neutral.
      now apply compositeBlock_balanced.
Qed.

(** C9.  The clip rectangle set to (20, 20, 20, 20) reads back as the same
    four values, as does any rectangle; and a container whose [clipWidth] or
    [clipHeight] is zero and which has no clip function (in particular after
    either is set to 0) draws its children with no clip block before them and
    no clip restore after them. *)
Theorem C9_clip_round_trip_and_zero_clip `{NodeBase} :
  forall (d : NodeData),
    get_clip (set_clip d (mkRect 20%float 20%float 20%float 20%float))
      = mkClip (Some 20%float) (Some 20%float) (Some 20%float) (Some 20%float) /\
    (forall r, get_clip (set_clip d r)
               = mkClip (Some (x r)) (Some (y r)) (Some (width r)) (Some (height r))) /\
    (clipFunc (attrs d) = None ->
     hasClip (set_clipWidth d 0%float) = false /\
     hasClip (set_clipHeight d 0%float) = false) /\
    forall (cs : list Node) (drawMethod : DrawMethod) (c : Canvas)
           (top : option NodeData) (z : number),
      is_zero z = true ->
      clipWidth (attrs d) = Some z \/ clipHeight (attrs d) = Some z ->
      clipFunc (attrs d) = None ->
      hasClip d = false /\
      exists kids,
        forEach_draw (fun child => draw drawMethod child (Some c) top) cs = Some kids /\
        _drawChildren (draw drawMethod) d cs drawMethod (Some c) top =
          Some (compositePre c d drawMethod top ++ kids
                ++ compositePost c d drawMethod top).
Proof.
  intros d. split; [reflexivity |]. split; [reflexivity |].
  assert (Hzero : forall d' z,
             is_zero z = true ->
             clipWidth (attrs d') = Some z \/ clipHeight (attrs d') = Some z ->
             clipFunc (attrs d') = None ->
             hasClip d' = false).
  { intros d' z Hz Hwh Hf. unfold hasClip. rewrite Hf, orb_false_r.
    unfold is_zero in Hz.
    destruct Hwh as [E | E]; rewrite E; simpl; rewrite Hz; simpl;
      [reflexivity | apply andb_false_r]. }
  split.
  { intros Hf. split.
    - apply (Hzero _ 0%float eq_refl); [left; reflexivity | exact Hf].
    - apply (Hzero _ 0%float eq_refl); [right; reflexivity | exact Hf]. }
  intros cs drawMethod c top z Hz Hwh Hf.
  pose proof (Hzero d z Hz Hwh Hf) as Hclip.
  split; [exact Hclip |].
  destruct (children_draw_total drawMethod cs c top) as [kids Hk].
  exists kids. split; [exact Hk |].
  erewrite _drawChildren_events by exact Hk.
  unfold clipPre, clipPost. rewrite Hclip. simpl. now rewrite app_nil_r.
Qed.

(** ** Cache invalidation *)

Section CacheFacts.
Context `{NodeBase}.
Variable attr : option string.

Lemma data_cleared (n : Node) :
  data (_clearSelfAndDescendantCache n attr)
  = Node_clearSelfAndDescendantCache (data n) attr.
Proof.
  destruct n as [d | d cs]; simpl; [reflexivity |].
  destruct (isCached (Node_clearSelfAndDescendantCache d attr)); reflexivity.
Qed.

(** Where the walk leaves each node of the tree. *)
Lemma nodeAt_cleared (path : list nat) :
  forall root D,
    nodeAt path root = Some D ->
    nodeAt path (_clearSelfAndDescendantCache root attr)
    = Some (if blocked attr root path then D
            else _clearSelfAndDescendantCache D attr).
Proof.
  induction path as [| i rest IH]; intros root D Hat; simpl in *.
  - now inversion Hat.
  - destruct root as [d | d cs]; simpl in *.
    + destruct i; discriminate.
    + destruct (nth_error cs i) as [child |] eqn:Hi; [| discriminate].
      destruct (isCached (Node_clearSelfAndDescendantCache d attr)); simpl.
      * now rewrite Hi.
      * rewrite nth_error_map, Hi. simpl. now apply IH.
Qed.

Lemma blocked_below (p : list nat) :
  forall root A q,
    nodeAt p root = Some A ->
    isCached (Node_clearSelfAndDescendantCache (data A) attr) = true ->
    q <> [] ->
    blocked attr root (p ++ q) = true.
Proof.
  induction p as [| i rest IH]; intros root A q Hat Hc Hq; simpl in *.
  - inversion Hat; subst. destruct q as [| j q]; [congruence |].
    simpl. now rewrite Hc.
  - destruct (nth_error (getChildren root) i) as [child |]; [| discriminate].
    rewrite (IH child A q Hat Hc Hq). apply orb_true_r.
Qed.

Lemma blocked_inv (p : list nat) :
  forall root D,
    nodeAt p root = Some D ->
    blocked attr root p = true ->
    exists p1 p2 A,
      p = p1 ++ p2 /\ p2 <> [] /\ nodeAt p1 root = Some A /\
      isCached (Node_clearSelfAndDescendantCache (data A) attr) = true.
Proof.
  induction p as [| i rest IH]; intros root D Hat Hb; simpl in *.
  - discriminate.
  - destruct (isCached (Node_clearSelfAndDescendantCache (data root) attr)) eqn:Hc.
    + exists [], (i :: rest), root. repeat split; auto. discriminate.
    + simpl in Hb.
      destruct (nth_error (getChildren root) i) as [child |] eqn:Hi; [| discriminate].
      destruct (IH child D Hat Hb) as (p1 & p2 & A & -> & Hp2 & HA & HcA).
      exists (i :: p1), p2, A. repeat split; auto. simpl. now rewrite Hi.
Qed.

End CacheFacts.

(** C5.  A container that holds a bitmap when the walk reaches it (after
    the base method has run on it) is returned with its children untouched:
    the walk does not descend into them.  Let moreover the base method, for
    the attribute being invalidated, leave the bitmap slot of a node alone.
    Then the walk (1) leaves every node strictly below a cached node exactly
    as it was; (2) leaves the cached bitmap of every node of the tree as it
    was; and (3) runs the base method on every node that has no cached node
    strictly above it. *)
Theorem C5_cached_subtree_is_opaque `{NodeBase} :
  forall (attr : option string),
    (forall d cs,
        isCached (Node_clearSelfAndDescendantCache d attr) = true ->
        _clearSelfAndDescendantCache (Container d cs) attr
        = Container (Node_clearSelfAndDescendantCache d attr) cs) /\
    forall (root : Node),
    (forall d, canvasCache (Node_clearSelfAndDescendantCache d attr) = canvasCache d) ->
    (forall p q A D,
        nodeAt p root = Some A -> isCached (data A) = true -> q <> [] ->
        nodeAt (p ++ q) root = Some D ->
        nodeAt (p ++ q) (_clearSelfAndDescendantCache root attr) = Some D) /\
    (forall p D,
        nodeAt p root = Some D ->
        exists D',
          nodeAt p (_clearSelfAndDescendantCache root attr) = Some D' /\
          canvasCache (data D') = canvasCache (data D)) /\
    (forall p D,
        nodeAt p root = Some D ->
        (forall p1 p2 A, p = p1 ++ p2 -> p2 <> [] -> nodeAt p1 root = Some A ->
                         isCached (data A) = false) ->
        exists D',
          nodeAt p (_clearSelfAndDescendantCache root attr) = Some D' /\
          data D' = Node_clearSelfAndDescendantCache (data D) attr).
Proof.
  intros attr. split.
  { intros d cs Hc. simpl. now rewrite Hc. }
  intros root Hkeep.
  assert (Hcached : forall d, isCached (Node_clearSelfAndDescendantCache d attr) = isCached d).
  { intros d. unfold isCached. now rewrite Hkeep. }
  split; [| split].
  - intros p q A D HA Hc Hq HD.
    assert (Hb : blocked attr root (p ++ q) = true).
    { apply blocked_below with (A := A); [exact HA | now rewrite Hcached | exact Hq]. }
    erewrite nodeAt_cleared by exact HD. now rewrite Hb.
  - intros p D HD. erewrite nodeAt_cleared by exact HD.
    destruct (blocked attr root p); eexists; split; try reflexivity.
    now rewrite data_cleared, Hkeep.
  - intros p D HD Hfree. erewrite nodeAt_cleared by exact HD.
    destruct (blocked attr root p) eqn:Hb.
    + destruct (blocked_inv _ _ _ HD Hb) as (p1 & p2 & A & E & Hp2 & HA & HcA).
      rewrite Hcached in HcA. rewrite (Hfree p1 p2 A E Hp2 HA) in HcA. discriminate.
    + eexists. split; [reflexivity | apply data_cleared].
Qed.

(** ** Client rectangle *)

Section ClientRectFacts.
Context `{NodeBase}.

Lemma find_is_filter (this : Node) (selector : Selector) :
  find this selector = filter (fun n => _isMatch n selector) (preorder this).
Proof. unfold find. now rewrite find_as_until, until_all_plain. Qed.


Lemma hasVisible_none (d : NodeData) (shapes : list Node) :
  (forall s, In s shapes -> _isVisible (data s) d = false) ->
  hasVisible d shapes = false.
Proof.
  intros Hno. unfold hasVisible.
  induction shapes as [| s shapes IH]; simpl; [reflexivity |].
  rewrite (Hno s (or_introl eq_refl)). simpl.
  apply IH. intros k Hk. apply Hno. now right.
Qed.

Lemma selfRect_no_shape (acc : option Bounds) : selfRect acc false = zeroRect.
Proof. destruct acc; reflexivity. Qed.

(** The rectangle before the final transform is empty for a container with
    no child and for one with no effectively visible shape below it. *)
Lemma local_rect_empty (d : NodeData) (cs : list Node) (config : ClientRectConfig) :
  cs = [] \/
  (forall s, In s (preorder (Container d cs)) ->
             _isMatch s (selString "Shape") = true -> _isVisible (data s) d = false) ->
  selfRect (childBounds d cs config)
           (hasVisible d (find (Container d cs) (selString "Shape")))
  = zeroRect.
Proof.
  intros [-> | Hno].
  - reflexivity.
  - rewrite hasVisible_none; [apply selfRect_no_shape |].
    intros s Hs. rewrite find_is_filter in Hs. apply filter_In in Hs.
    destruct Hs as [Hin Hm]. now apply Hno.
Qed.

End ClientRectFacts.

(** C7, as amended.  For a container with no children, or whose descendant
    shapes are all not effectively visible with respect to it, the rectangle
    computed before the final transform is (0,0,0,0): [getClientRect] returns
    (0,0,0,0) when [skipTransform] is set, and otherwise the image of
    (0,0,0,0) under the container's [_transformedRect], for the [relativeTo]
    given; so [getClientRect()] returns (0,0,0,0) for every such container
    whose transform, with no [relativeTo], leaves the empty rectangle in
    place, as that of a container which is not transformed does. *)
Theorem C7_empty_client_rect `{NodeBase} :
  forall (d : NodeData) (cs : list Node),
    cs = [] \/
    (forall s, In s (preorder (Container d cs)) ->
               _isMatch s (selString "Shape") = true -> _isVisible (data s) d = false) ->
    (forall config,
        getClientRect (Container d cs) config =
        if skipTransform config then zeroRect
        else _transformedRect d zeroRect (relativeTo config)) /\
    (_transformedRect d zeroRect None = zeroRect ->
     getClientRect (Container d cs) (mkConfig false false false None) = zeroRect).
Proof.
  intros d cs Hempty.
  assert (Hall : forall config,
             getClientRect (Container d cs) config =
             if skipTransform config then zeroRect
             else _transformedRect d zeroRect (relativeTo config)).
  { intros config. simpl.
    change (fold_left _ cs None) with (childBounds d cs config).
    rewrite (local_rect_empty d config Hempty).
    destruct (skipTransform config); reflexivity. }
  split; [exact Hall |].
  intros Hid. rewrite Hall. simpl. exact Hid.
Qed.


(** ** Tree mutation *)

Module MutationFacts.
Import Mutation.

Unset Implicit Arguments.

Lemma update_same {A : Type} (f : ref -> A) n v : update f n v n = v.
Proof. unfold update. now rewrite Nat.eqb_refl. Qed.

Lemma update_other {A : Type} (f : ref -> A) n v k :
  k <> n -> update f n v k = f k.
Proof. intros Hk. unfold update. now apply Nat.eqb_neq in Hk as ->. Qed.

Lemma bind_returned {A B : Type} (m : M A) (k : A -> M B) (s : Store) (a : A) :
  outcome (m s) = Returned a ->
  bind m k s =
  mkRun (outcome (k a (final (m s)))) (final (k a (final (m s))))
        (steps (m s) ++ steps (k a (final (m s)))).
Proof. intros Ho. unfold bind. now rewrite Ho. Qed.

(** *** Lists: [splice] and positions *)

Lemma nth_error_splice (cs : list ref) :
  forall j i, nth_error (splice cs j) i = nth_error cs (unsplice j i).
Proof.
  unfold splice, unsplice.
  induction cs as [| c cs IH]; intros j i.
  - rewrite firstn_nil, skipn_nil. simpl. now rewrite !nth_error_nil.
  - destruct j as [| j]; [reflexivity |].
    destruct i as [| i]; [reflexivity |].
    change (nth_error (firstn j cs ++ skipn (S j) cs) i
            = nth_error (c :: cs) (if i <? j then S i else S (S i))).
    rewrite (IH j i). now destruct (i <? j).
Qed.

Lemma unsplice_skips j i : unsplice j i <> j.
Proof.
  unfold unsplice. destruct (Nat.ltb_spec i j); lia.
Qed.

Lemma unsplice_inj j i i' : unsplice j i = unsplice j i' -> i = i'.
Proof.
  unfold unsplice. destruct (Nat.ltb_spec i j), (Nat.ltb_spec i' j); lia.
Qed.

(** *** What I1 says about the sequences *)

Lemma I1_NoDup s C cs : I1 s -> children s C = Some cs -> NoDup cs.
Proof.
  intros HI HC. apply NoDup_nth_error. intros i j Hi E.
  destruct (nth_error cs i) as [K |] eqn:HK.
  - destruct (HI _ _ _ _ HC HK) as [_ <-].
    symmetry in E. now destruct (HI _ _ _ _ HC E) as [_ <-].
  - apply nth_error_None in HK. lia.
Qed.

Lemma I1_one_owner s K : I1 s -> at_most_one_owner (children s) K.
Proof.
  intros HI C D cs ds i j HC Hi HD Hj.
  destruct (HI _ _ _ _ HC Hi) as [Hp <-].
  destruct (HI _ _ _ _ HD Hj) as [Hp' <-].
  split; congruence.
Qed.

(** *** The index map after renumbering *)

Lemma renumber_outside (cs : list ref) :
  forall idx n K, ~ In K cs -> renumber idx cs n K = idx K.
Proof.
  induction cs as [| c cs IH]; intros idx n K Hin; simpl; [reflexivity |].
  rewrite IH by (intros Hk; apply Hin; now right).
  apply update_other. intros ->. apply Hin. now left.
Qed.

Lemma renumber_position (cs : list ref) :
  forall idx n i K,
    NoDup cs -> nth_error cs i = Some K -> renumber idx cs n K = n + i.
Proof.
  induction cs as [| c cs IH]; intros idx n i K Hnd Hi.
  - destruct i; discriminate.
  - inversion Hnd as [| ? ? Hc Hnd']; subst.
    destruct i as [| i]; simpl in *.
    + inversion Hi; subst. rewrite renumber_outside by assumption.
      rewrite update_same. lia.
    + rewrite (IH _ _ i K Hnd' Hi). lia.
Qed.

(** *** Runs of the loops and of [remove] *)

Lemma forEach_set_index p c e (cs : list ref) :
  forall i n,
    let r := forEach cs n (fun child k => set_index child k) (mkStore p i c e) in
    outcome r = Returned tt /\
    final r = mkStore p (renumber i cs n) c e /\
    Forall (fun st => children st = c) (steps r).
Proof.
  induction cs as [| k cs IH]; intros i n; simpl.
  - repeat split. constructor.
  - destruct (IH (update i k n) (S n)) as (Ho & Hf & Hs).
    unfold bind. simpl. rewrite Ho, Hf. simpl. repeat split.
    constructor; [reflexivity | exact Hs].
Qed.

Lemma remove_run (s : Store) (n : ref) :
  let r := remove n s in
  outcome r = Returned tt /\
  parent (final r) = update (parent s) n None /\
  index (final r) = detached_index s n /\
  children (final r) = detached s n /\
  Forall (fun st => children st = detached s n) (steps r).
Proof.
  destruct s as [p i c e]. unfold remove, detached, detached_index.
  unfold bind at 1. simpl.
  destruct (p n) as [q |] eqn:Hp; [destruct (c q) as [cs |] eqn:Hc |].
  - unfold _setChildrenIndices, bind, set_children, get, modify. simpl.
    rewrite update_same. simpl.
    destruct (forEach_set_index p (update c q (Some (splice cs (i n)))) e
                (splice cs (i n)) i 0) as (Ho & Hf & Hs).
    rewrite Ho, Hf. simpl. repeat split.
    repeat (first [apply Forall_cons; [reflexivity |] | apply Forall_app; split
                  | apply Forall_nil | exact Hs]).
  - unfold bind. simpl. repeat split. repeat constructor.
  - unfold bind. simpl. repeat split. repeat constructor.
Qed.


Lemma bind_returned_inv {A B : Type} (m : M A) (k : A -> M B) (s : Store) (b : B) :
  outcome (bind m k s) = Returned b -> exists a, outcome (m s) = Returned a.
Proof.
  unfold bind. destruct (outcome (m s)) as [a | |]; simpl; intros E;
    [now exists a | discriminate | discriminate].
Qed.

(** The store [remove] leaves is the store after its last write. *)
Lemma remove_last_step (s : Store) (n : ref) :
  In (final (remove n s)) (steps (remove n s)).
Proof.
  destruct (remove_run s n) as (Ho & _).
  set (detach := match parent s n with
                 | Some p =>
                     match children s p with
                     | Some cs =>
                         set_children p (Some (splice cs (index s n))) ;;;
                         _setChildrenIndices p
                     | None => ret tt
                     end
                 | None => ret tt
                 end).
  set (run := (detach ;;; set_parent n None ;;; set_index n 0) s).
  change (outcome run = Returned tt) in Ho.
  change (In (final run) (steps run)).
  subst run.
  destruct (bind_returned_inv detach (fun _ => set_parent n None ;;; set_index n 0)
              s tt Ho) as [a Ha].
  rewrite (bind_returned detach (fun _ => set_parent n None ;;; set_index n 0) s a Ha).
  cbn [final steps].
  apply in_or_app. right.
  unfold bind, set_parent, set_index, modify. cbn [outcome final steps app].
  right. now left.
Qed.

(** *** [remove] keeps I1 and leaves the node in no sequence *)

Lemma detached_owner (s : Store) (n K : ref) :
  I1 s -> at_most_one_owner (detached s n) K.
Proof.
  intros HI. unfold detached.
  destruct (parent s n) as [p |] eqn:Hp; [| now apply I1_one_owner].
  destruct (children s p) as [cs |] eqn:Hc; [| now apply I1_one_owner].
  assert (Hlift : forall C l i,
             update (children s) p (Some (splice cs (index s n))) C = Some l ->
             nth_error l i = Some K ->
             exists l' i', children s C = Some l' /\ nth_error l' i' = Some K /\
                           (C = p -> i' = unsplice (index s n) i) /\ (C <> p -> i' = i)).
  { intros C l i HC Hi. destruct (Nat.eq_dec C p) as [-> | Hne].
    - rewrite update_same in HC. inversion HC; subst.
      rewrite nth_error_splice in Hi. exists cs, (unsplice (index s n) i).
      repeat split; auto. congruence.
    - rewrite update_other in HC by assumption. exists l, i. repeat split; auto.
      congruence. }
  intros C D l l' i j HC Hi HD Hj.
  destruct (Hlift _ _ _ HC Hi) as (m & a & HmC & Ha & HaP & HaN).
  destruct (Hlift _ _ _ HD Hj) as (m' & b & HmD & Hb & HbP & HbN).
  destruct (I1_one_owner s K HI _ _ _ _ _ _ HmC Ha HmD Hb) as [-> Eab].
  split; [reflexivity |].
  destruct (Nat.eq_dec D p) as [E | E].
  - rewrite (HaP E), (HbP E) in Eab. now apply unsplice_inj in Eab.
  - now rewrite (HaN E), (HbN E) in Eab.
Qed.

Lemma detached_no_owner (s : Store) (n : ref) :
  I1 s -> no_owner (detached s n) n.
Proof.
  intros HI C l HC Hin. apply In_nth_error in Hin as [i Hi].
  unfold detached in HC.
  destruct (parent s n) as [p |] eqn:Hp.
  - destruct (children s p) as [cs |] eqn:Hc.
    + destruct (Nat.eq_dec C p) as [-> | Hne].
      * rewrite update_same in HC. inversion HC; subst.
        rewrite nth_error_splice in Hi.
        destruct (HI _ _ _ _ Hc Hi) as [_ Hidx].
        symmetry in Hidx. now apply unsplice_skips in Hidx.
      * rewrite update_other in HC by assumption.
        destruct (HI _ _ _ _ HC Hi) as [Hp' _]. congruence.
    + destruct (HI _ _ _ _ HC Hi) as [Hp' _]. congruence.
  - destruct (HI _ _ _ _ HC Hi) as [Hp' _]. congruence.
Qed.

Lemma remove_I1 (s : Store) (n : ref) : I1 s -> I1 (final (remove n s)).
Proof.
  intros HI. destruct (remove_run s n) as (_ & Hp & Hi & Hc & _).
  intros C l i K HC HK. rewrite Hp, Hi. rewrite Hc in HC.
  assert (HKn : K <> n).
  { intros ->. eapply (detached_no_owner s n HI); eauto. eapply nth_error_In; eauto. }
  unfold detached_index. rewrite !update_other by assumption.
  unfold detached in HC.
  destruct (parent s n) as [p |] eqn:Hpn; [| now apply (HI _ _ _ _ HC HK)].
  destruct (children s p) as [cs |] eqn:Hcp; [| now apply (HI _ _ _ _ HC HK)].
  destruct (Nat.eq_dec C p) as [-> | Hne].
  - rewrite update_same in HC. inversion HC; subst.
    assert (Hnd : NoDup (splice cs (index s n))).
    { apply NoDup_nth_error. intros a b Ha E.
      rewrite !nth_error_splice in E.
      apply unsplice_inj with (j := index s n).
      assert (Hcs : NoDup cs) by (eapply I1_NoDup; eauto).
      rewrite NoDup_nth_error in Hcs. apply Hcs; [| exact E].
      apply nth_error_Some. rewrite <- nth_error_splice.
      now apply nth_error_Some. }
    rewrite (renumber_position _ _ 0 i K Hnd HK).
    rewrite nth_error_splice in HK.
    destruct (HI _ _ _ _ Hcp HK) as [HpK _]. split; [exact HpK | reflexivity].
  - rewrite update_other in HC by assumption.
    destruct (HI _ _ _ _ HC HK) as [HpK HiK].
    rewrite renumber_outside; [now split |].
    intros Hin. apply In_nth_error in Hin as [a Ha].
    rewrite nth_error_splice in Ha.
    destruct (HI _ _ _ _ Hcp Ha) as [HpK' _]. congruence.
Qed.


(** *** [add] of a child that has no parent *)

Section AddFacts.
Variable accepts : ref -> ref -> bool.

Lemma attach_run (fuel : nat) (this child : ref) (s : Store) :
  parent s child = None ->
  let r := add accepts (S fuel) this [child] s in
  (accepts this child = true ->
   outcome r = Returned tt /\
   parent (final r) = update (parent s) child (Some this) /\
   index (final r) =
     update (index s) child
            (List.length (match children s this with Some cs => cs | None => [] end)) /\
   children (final r) = pushed (children s) this child /\
   Forall (fun st => children st = children s \/
                     children st = pushed (children s) this child) (steps r)) /\
  (accepts this child = false ->
   outcome r = Thrown /\ final r = s /\ steps r = []).
Proof.
  intros Hp. destruct s as [p i c e]. simpl in Hp.
  cbn [add]. unfold bind at 1. cbn [getParent get bind ret outcome final steps parent].
  unfold bind at 1. cbn [get ret outcome final steps parent app].
  rewrite Hp. cbn [app]. unfold _validateAdd.
  split; intros Ha; rewrite Ha.
  - unfold pushed, push, getChildren.
    cbv [bind set_index set_parent set_children effect modify get ret
         outcome final steps parent index children effects app].
    destruct (c this) as [cs |];
      cbv [bind set_index set_parent set_children effect modify get ret
           outcome final steps parent index children effects app];
      repeat split;
      repeat (apply Forall_cons; [first [left; reflexivity | right; reflexivity] |]);
      apply Forall_nil.
  - cbv [bind throw outcome final steps]. repeat split.
Qed.

Lemma pushed_I1 (s s' : Store) (this child : ref) :
  I1 s -> parent s child = None ->
  parent s' = update (parent s) child (Some this) ->
  index s' =
    update (index s) child
           (List.length (match children s this with Some cs => cs | None => [] end)) ->
  children s' = pushed (children s) this child ->
  I1 s'.
Proof.
  intros HI Hp Ep Ei Ec C l i K HC HK. rewrite Ep, Ei. rewrite Ec in HC.
  assert (Hold : forall D ds a, children s D = Some ds -> nth_error ds a = Some K ->
                                K <> child).
  { intros D ds a HD Ha ->. destruct (HI _ _ _ _ HD Ha) as [Hp' _]. congruence. }
  unfold pushed in HC. destruct (children s this) as [cs |] eqn:Hc.
  - destruct (Nat.eq_dec C this) as [-> | Hne].
    + rewrite update_same in HC. inversion HC; subst.
      destruct (Nat.lt_ge_cases i (List.length cs)) as [Hlt | Hge].
      * rewrite nth_error_app1 in HK by assumption.
        rewrite !update_other by (eapply Hold; eauto).
        now apply (HI _ _ _ _ Hc HK).
      * rewrite nth_error_app2 in HK by assumption.
        destruct (i - List.length cs) as [| k] eqn:Hk; simpl in HK.
        -- inversion HK; subst. rewrite !update_same. split; [reflexivity | lia].
        -- destruct k; discriminate.
    + rewrite update_other in HC by assumption.
      rewrite !update_other by (eapply Hold; eauto).
      now apply (HI _ _ _ _ HC HK).
  - rewrite !update_other by (eapply Hold; eauto).
    now apply (HI _ _ _ _ HC HK).
Qed.

Lemma attach_I1 (fuel : nat) (this child : ref) (s : Store) :
  I1 s -> parent s child = None ->
  I1 (final (add accepts (S fuel) this [child] s)).
Proof.
  intros HI Hp. destruct (attach_run fuel this child s Hp) as [Hyes Hno].
  destruct (accepts this child).
  - destruct (Hyes eq_refl) as (_ & Ep & Ei & Ec & _).
    eapply pushed_I1; eauto.
  - destruct (Hno eq_refl) as (_ & -> & _). exact HI.
Qed.

(** The run of [add] on one child that has a parent: the run of [remove],
    then the run of [add] on the child, now without a parent. *)
Lemma add_moves (fuel : nat) (this child q : ref) (s : Store) :
  parent s child = Some q ->
  let r1 := remove child s in
  let r2 := add accepts fuel this [child] (final r1) in
  let r := add accepts (S fuel) this [child] s in
  outcome r = outcome r2 /\ final r = final r2 /\ steps r = steps r1 ++ steps r2.
Proof.
  intros Hp. cbn [add]. unfold bind at 1.
  cbn [getParent get bind ret outcome final steps]. rewrite Hp.
  unfold moveTo, bind.
  destruct (remove_run s child) as (Ho & _). rewrite Ho. simpl. repeat split.
Qed.

Lemma forEach_preserves (P : Store -> Prop) (body : ref -> nat -> M unit) :
  (forall item n s, P s -> P (final (body item n s))) ->
  forall items n s, P s -> P (final (forEach items n body s)).
Proof.
  intros Hbody. induction items as [| item items IH]; intros n s HP; simpl.
  - exact HP.
  - unfold bind. specialize (Hbody item n s HP).
    destruct (outcome (body item n s)); simpl; auto.
Qed.

(** [add] keeps I1, however it ends. *)
Lemma add_I1 (fuel : nat) :
  forall this args s, I1 s -> I1 (final (add accepts fuel this args s)).
Proof.
  induction fuel as [| fuel IH]; intros this args s HI.
  - exact HI.
  - destruct args as [| child [| arg2 rest]].
    + exact HI.
    + destruct (parent s child) as [q |] eqn:Hp.
      * destruct (add_moves fuel this child q s Hp) as (_ & -> & _).
        apply IH. now apply remove_I1.
      * now apply attach_I1.
    + cbn [add]. apply forEach_preserves; [| exact HI].
      intros item n s' HI'. now apply IH.
Qed.

(** Two nested calls are enough for one child, three for several. *)
Lemma add_one_fuel (fuel : nat) (this child : ref) (s : Store) :
  2 <= fuel -> outcome (add accepts fuel this [child] s) <> OutOfFuel.
Proof.
  intros Hf. destruct fuel as [| [| fuel]]; try lia.
  destruct (parent s child) as [q |] eqn:Hp.
  - destruct (add_moves (S fuel) this child q s Hp) as (-> & _).
    destruct (remove_run s child) as (_ & Hpar & _).
    assert (Hp' : parent (final (remove child s)) child = None)
      by (rewrite Hpar; apply update_same).
    destruct (attach_run fuel this child _ Hp') as [Hyes Hno].
    destruct (accepts this child).
    + destruct (Hyes eq_refl) as (-> & _). discriminate.
    + destruct (Hno eq_refl) as (-> & _). discriminate.
  - destruct (attach_run (S fuel) this child s Hp) as [Hyes Hno].
    destruct (accepts this child).
    + destruct (Hyes eq_refl) as (-> & _). discriminate.
    + destruct (Hno eq_refl) as (-> & _). discriminate.
Qed.

Lemma forEach_fuel (body : ref -> nat -> M unit) :
  (forall item n s, outcome (body item n s) <> OutOfFuel) ->
  forall items n s, outcome (forEach items n body s) <> OutOfFuel.
Proof.
  intros Hbody. induction items as [| item items IH]; intros n s; simpl.
  - discriminate.
  - unfold bind. specialize (Hbody item n s).
    destruct (outcome (body item n s)); simpl; auto; discriminate.
Qed.

Lemma add_fuel (fuel : nat) (this : ref) (args : list ref) (s : Store) :
  3 <= fuel -> outcome (add accepts fuel this args s) <> OutOfFuel.
Proof.
  intros Hf. destruct args as [| child [| arg2 rest]].
  - destruct fuel; [lia | discriminate].
  - apply add_one_fuel. lia.
  - destruct fuel as [| fuel]; [lia |]. cbn [add].
    apply forEach_fuel. intros item n s'. apply add_one_fuel. lia.
Qed.

End AddFacts.


(** *** [removeChildren] *)

(** One turn of the loop of [removeChildren]. *)
Lemma removeChildren_turn (child : ref) (s : Store) :
  let r := (set_parent child None ;;; set_index child 0 ;;; remove child) s in
  outcome r = Returned tt /\
  children (final r) = children s /\
  forall K, K <> child ->
            parent (final r) K = parent s K /\ index (final r) K = index s K.
Proof.
  destruct s as [p i c e].
  set (s1 := mkStore (update p child None) (update i child 0) c e).
  assert (Hp1 : parent s1 child = None) by apply update_same.
  destruct (remove_run s1 child) as (Ho & Hp & Hi & Hc & _).
  assert (E : (set_parent child None ;;; set_index child 0 ;;; remove child)
                (mkStore p i c e)
              = mkRun (outcome (remove child s1)) (final (remove child s1))
                      (mkStore (update p child None) i c e :: s1 :: steps (remove child s1))).
  { unfold bind, set_parent, set_index, modify.
    cbn [outcome final steps parent index children effects app].
    fold s1. rewrite Ho. reflexivity. }
  rewrite E. cbn [outcome final]. rewrite Ho, Hp, Hi, Hc.
  unfold detached, detached_index. rewrite Hp1. subst s1. cbn [parent index children].
  repeat split; now rewrite !update_other by assumption.
Qed.

Lemma removeChildren_loop (cs : list ref) :
  forall n s,
    let r := forEach cs n
               (fun child _ => set_parent child None ;;; set_index child 0 ;;; remove child)
               s in
    outcome r = Returned tt /\
    children (final r) = children s /\
    forall K, ~ In K cs ->
              parent (final r) K = parent s K /\ index (final r) K = index s K.
Proof.
  induction cs as [| c cs IH]; intros n s; simpl.
  - repeat split.
  - destruct (removeChildren_turn c s) as (Ho & Hc & Hrest).
    rewrite (bind_returned _ _ _ _ Ho).
    destruct (IH (S n) (final ((set_parent c None ;;; set_index c 0 ;;; remove c) s)))
      as (Ho' & Hc' & Hrest').
    cbn [outcome final]. split; [exact Ho' |]. split; [now rewrite Hc' |].
    intros K HK.
    destruct (Hrest' K) as [E1 E2]; [tauto |].
    destruct (Hrest K) as [E3 E4]; [intros ->; apply HK; now left |].
    split; congruence.
Qed.

Lemma removeChildren_I1 (this : ref) (s : Store) :
  I1 s -> I1 (final (removeChildren this s)).
Proof.
  intros HI.
  set (cs := match children s this with Some l => l | None => [] end).
  destruct (removeChildren_loop cs 0 s) as (Ho & Hc & Hrest).
  assert (E : final (removeChildren this s) =
              final (set_children this (Some [])
                       (final (forEach cs 0
                                 (fun child _ =>
                                    set_parent child None ;;; set_index child 0 ;;;
                                    remove child) s)))).
  { unfold removeChildren.
    rewrite (bind_returned _ _ s cs) by reflexivity.
    change (final (getChildren this s)) with s. cbn [final].
    rewrite (bind_returned _ _ _ _ Ho). reflexivity. }
  rewrite E. unfold I1. cbn [final set_children modify children parent index].
  intros C l i K HC HK.
  destruct (Nat.eq_dec C this) as [-> | Hne].
  - rewrite update_same in HC. inversion HC; subst. destruct i; discriminate.
  - rewrite update_other in HC by assumption. rewrite Hc in HC.
    destruct (HI _ _ _ _ HC HK) as [HpK HiK].
    destruct (Hrest K) as [E1 E2]; [| split; congruence].
    intros Hin. subst cs.
    destruct (children s this) as [l' |] eqn:Hthis; [| exact Hin].
    apply In_nth_error in Hin as [a Ha].
    destruct (HI _ _ _ _ Hthis Ha) as [HpK' _]. congruence.
Qed.

Lemma runOp_I1 accepts (fuel : nat) (op : Op) (s : Store) :
  I1 s -> I1 (final (runOp accepts fuel op s)).
Proof.
  intros HI. destruct op as [this args | n | this]; cbn [runOp].
  - now apply add_I1.
  - now apply remove_I1.
  - now apply removeChildren_I1.
Qed.

Lemma runOp_fuel accepts (fuel : nat) (op : Op) (s : Store) :
  3 <= fuel -> outcome (runOp accepts fuel op s) <> OutOfFuel.
Proof.
  intros Hf. destruct op as [this args | n | this]; cbn [runOp].
  - now apply add_fuel.
  - destruct (remove_run s n) as (-> & _). discriminate.
  - set (cs := match children s this with Some l => l | None => [] end).
    destruct (removeChildren_loop cs 0 s) as (Ho & _).
    unfold removeChildren.
    rewrite (bind_returned _ _ s cs) by reflexivity.
    change (final (getChildren this s)) with s. cbn [outcome].
    rewrite (bind_returned _ _ _ _ Ho). cbn [outcome]. discriminate.
Qed.

(** C1.  From a store in which every child at position [i] of a container
    [C] has [C] as parent and [i] as index, after each operation of any
    sequence of [add], [remove] and [removeChildren] calls the same holds
    of every container again, whether the operation returned or threw; and
    with three nested calls allowed no operation is cut short by the
    model. *)
Theorem C1_index_invariant_preserved :
  forall (accepts : ref -> ref -> bool) (fuel : nat) (ops : list Op) (s0 : Store),
    I1 s0 ->
    3 <= fuel ->
    Forall I1 (runOps accepts fuel ops s0) /\
    forall op s, outcome (runOp accepts fuel op s) <> OutOfFuel.
Proof.
  intros accepts fuel ops s0 HI Hf. split.
  - revert s0 HI. induction ops as [| op ops IH]; intros s0 HI; simpl.
    + constructor.
    + pose proof (runOp_I1 accepts fuel op s0 HI) as HI'.
      constructor; [exact HI' | now apply IH].
  - intros op s. now apply runOp_fuel.
Qed.


(** C2, as amended.  Let [N] sit in the sequence of its parent [A], let
    [B] be another container with a child array, and let [B]'s
    [_validateAdd] accept [N].  Then [B.add(N)] returns, [N] (the same
    reference) is the last child of [B] and is no child of [A], its parent
    is [B] and its index its position; after every write of the call [N] is
    in the sequence of at most one container, at most once, and after one of
    them, between the detach and the reattach, it has no parent and is in no
    sequence; and I1 holds again at the end. *)
Theorem C2_add_relocates :
  forall (accepts : ref -> ref -> bool) (fuel : nat) (s : Store)
         (A B N : ref) (csB : list ref),
    I1 s ->
    attached s N A ->
    A <> B ->
    children s B = Some csB ->
    accepts B N = true ->
    2 <= fuel ->
    let r := add accepts fuel B [N] s in
    outcome r = Returned tt /\
    children (final r) B = Some (csB ++ [N]) /\
    (forall cs, children (final r) A = Some cs -> ~ In N cs) /\
    parent (final r) N = Some B /\
    index (final r) N = List.length csB /\
    Forall (fun st => at_most_one_owner (children st) N) (steps r) /\
    (exists st, In st (steps r) /\ parent st N = None /\ no_owner (children st) N) /\
    I1 (final r).
Proof.
  intros accepts fuel s A B N csB HI [HpN (csA & HcA & HatN)] HAB HcB Hacc Hf.
  destruct fuel as [| [| fuel]]; try lia.
  destruct (add_moves accepts (S fuel) B N A s HpN) as (Eo & Ef & Es).
  destruct (remove_run s N) as (_ & Hp1 & _ & Hc1 & Hs1).
  pose proof (remove_I1 s N HI) as HI1.
  set (s1 := final (remove N s)) in *.
  assert (HpN1 : parent s1 N = None) by (rewrite Hp1; apply update_same).
  destruct (attach_run accepts fuel B N s1 HpN1) as [Hyes _].
  destruct (Hyes Hacc) as (Ho2 & Hp2 & Hi2 & Hc2 & Hs2).
  pose proof (attach_I1 accepts fuel B N s1 HI1 HpN1) as HI2.
  assert (HB1 : children s1 B = Some csB).
  { rewrite Hc1. unfold detached. rewrite HpN, HcA.
    rewrite update_other by congruence. exact HcB. }
  assert (Hpush : pushed (children s1) B N = update (children s1) B (Some (csB ++ [N]))).
  { unfold pushed. now rewrite HB1. }
  intros r. subst r. rewrite Eo, Ef, Es.
  split; [exact Ho2 |].
  split; [rewrite Hc2, Hpush; apply update_same |].
  split.
  { intros cs Hcs. rewrite Hc2, Hpush in Hcs.
    rewrite update_other in Hcs by assumption.
    rewrite Hc1 in Hcs. eapply (detached_no_owner s N HI); eauto. }
  split; [rewrite Hp2; apply update_same |].
  split; [rewrite Hi2, update_same, HB1; reflexivity |].
  split; [| split; [| exact HI2]].
  - apply Forall_app. split.
    + eapply Forall_impl; [| exact Hs1]. intros st ->. now apply detached_owner.
    + eapply Forall_impl; [| exact Hs2]. intros st [-> | ->].
      * rewrite Hc1. now apply detached_owner.
      * rewrite <- Hc2. now apply I1_one_owner.
  - exists s1. split; [| split].
    + apply in_or_app. left. apply remove_last_step.
    + exact HpN1.
    + rewrite Hc1. now apply detached_no_owner.
Qed.

(** *** Worked stores *)

Lemma emptyStore_I1 : I1 emptyStore.
Proof.
  intros C cs i K HC HK. simpl in HC. inversion HC; subst.
  destruct i; discriminate.
Defined.

Lemma relocationStore_I1 : I1 relocationStore.
Proof. apply add_I1. exact emptyStore_I1. Defined.

Lemma C1_witness_session :
  I1 emptyStore /\ 3 <= 3 /\
  Forall I1
    (runOps pickyAccepts 3
       [op_add 0 [2; 4]; op_add 3 [2]; op_add 1 [4]; op_remove 2;
        op_removeChildren 0]
       emptyStore).
Proof.
  split; [exact emptyStore_I1 |]. split; [apply le_n |].
  exact (proj1 (C1_index_invariant_preserved pickyAccepts 3
                  [op_add 0 [2; 4]; op_add 3 [2]; op_add 1 [4]; op_remove 2;
                   op_removeChildren 0]
                  emptyStore emptyStore_I1 (le_n 3))).
Defined.

(** The stores of that session, read field by field: after the two adds
    node 2 has moved from container 0 to container 3; container 1 turns
    node 4 down, which [moveTo] has detached by then. *)
Example session_stores :
  let stores :=
    runOps pickyAccepts 3
      [op_add 0 [2; 4]; op_add 3 [2]; op_add 1 [4]] emptyStore in
  map (fun s => (children s 0, children s 3, parent s 2, index s 2, parent s 4)) stores
  = [ (Some [2; 4], Some [],  Some 0, 0, Some 0);
      (Some [4],    Some [2], Some 3, 0, Some 0);
      (Some [],     Some [2], Some 3, 0, None) ].
Proof. reflexivity. Qed.

Lemma C2_witness_relocation :
  I1 relocationStore /\
  attached relocationStore 2 0 /\
  children relocationStore 3 = Some [] /\
  pickyAccepts 3 2 = true /\
  (let r := add pickyAccepts 2 3 [2] relocationStore in
   outcome r = Returned tt /\
   children (final r) 3 = Some ([] ++ [2]) /\
   (forall cs, children (final r) 0 = Some cs -> ~ In 2 cs) /\
   parent (final r) 2 = Some 3 /\
   index (final r) 2 = List.length (@nil ref) /\
   Forall (fun st => at_most_one_owner (children st) 2) (steps r) /\
   (exists st, In st (steps r) /\ parent st 2 = None /\ no_owner (children st) 2) /\
   I1 (final r)).
Proof.
  assert (Hatt : attached relocationStore 2 0).
  { split; [reflexivity |]. exists [2]. split; reflexivity. }
  split; [exact relocationStore_I1 |]. split; [exact Hatt |].
  split; [reflexivity |]. split; [reflexivity |].
  refine (C2_add_relocates pickyAccepts 2 relocationStore 0 3 2 []
            relocationStore_I1 Hatt _ eq_refl eq_refl (le_n 2)).
  discriminate.
Defined.

(** The claim of C2 as it is worded fails in three ways.  Between the
    detach and the reattach node 2 has no parent and is in no sequence, so
    it does not have exactly one parent at all times.  Container 1 turns
    the node down: the call throws.  And added again to its own parent 0,
    the node is still a child of 0 afterwards. *)
Lemma C2_counterexample_midway_rejected_same_parent :
  attached relocationStore 2 0 /\
  (exists st,
      In st (steps (add pickyAccepts 2 3 [2] relocationStore)) /\
      parent st 2 = None /\ no_owner (children st) 2) /\
  outcome (add pickyAccepts 2 1 [2] relocationStore) = Thrown /\
  (outcome (add pickyAccepts 2 0 [2] relocationStore) = Returned tt /\
   children (final (add pickyAccepts 2 0 [2] relocationStore)) 0 = Some [2]).
Proof.
  split.
  { split; [reflexivity |]. exists [2]. split; reflexivity. }
  split.
  { exists (nth 2 (steps (add pickyAccepts 2 3 [2] relocationStore)) emptyStore).
    split; [apply nth_In; vm_compute; repeat constructor |].
    split; [reflexivity |].
    intros C cs HC. destruct C as [| C]; vm_compute in HC; inversion HC; subst;
      intros []. }
  split; [reflexivity |]. split; reflexivity.
Qed.

End MutationFacts.

(** ** Worked instances *)


Lemma C10_witness_no_match :
  (forall n, In n (preorder searchScene) ->
             @_isMatch (sceneBase noRects) n (selString "#nobody") = false) /\
  findOne (H := sceneBase noRects) searchScene (selString "#nobody") = None /\
  find (H := sceneBase noRects) searchScene (selString "#nobody") = [].
Proof.
  assert (Hno : forall n, In n (preorder searchScene) ->
                          @_isMatch (sceneBase noRects) n (selString "#nobody") = false).
  { intros n Hn.
    assert (Hall : forallb (fun k => negb (@_isMatch (sceneBase noRects) k
                                              (selString "#nobody")))
                           (preorder searchScene) = true) by reflexivity.
    rewrite forallb_forall in Hall. apply Hall in Hn.
    now apply negb_true_iff in Hn. }
  split; [exact Hno |].
  exact (@C10_no_match_is_absent (sceneBase noRects) searchScene
           (selString "#nobody") Hno).
Defined.

(** A predicate selector: the walk of [findOne] stops at node 2, the first
    shape, after visiting nodes 1 and 2 only. *)
Example findOne_predicate_stops_early :
  visited (H := sceneBase noRects) searchScene
          (selFunction (fun n => negb (hasChildren n))) true = [n1; n2] /\
  visited (H := sceneBase noRects) searchScene
          (selFunction (fun n => negb (hasChildren n))) false = [n1; n2; n3; n4; n5].
Proof. split; reflexivity. Qed.

(** The claim of C4 as it is worded fails: a cached container that is not
    visible, drawn on an ordinary canvas, replays nothing in the scene pass,
    and one that [shouldDrawHit] turns down replays nothing in the hit
    pass. *)
Lemma C4_counterexample_gate_before_cache :
  cachedFor drawScene_ (data (cachedGroup false)) = Some 7 /\
  draw (H := sceneBase noRects) drawScene_ (cachedGroup false) (Some sceneCanvas) None
    = Some [] /\
  cachedFor drawHit_ (data (cachedGroup false)) = Some 8 /\
  draw (H := sceneBase noRects) drawHit_ (cachedGroup false) (Some sceneCanvas) None
    = Some [].
Proof. repeat split. Qed.

Lemma C4_witness_visible_cached_group :
  cachedFor drawScene_ (data (cachedGroup true)) = Some 7 /\
  resolveCanvas (H := sceneBase noRects) drawScene_ (data (cachedGroup true))
                (Some sceneCanvas) = Some sceneCanvas /\
  passesGate (H := sceneBase noRects) drawScene_ (data (cachedGroup true))
             (Some sceneCanvas) None = true /\
  draw (H := sceneBase noRects) drawScene_ (cachedGroup true) (Some sceneCanvas) None
    = Some [ctx sceneCanvas save;
            ctx sceneCanvas (transform identityMatrix);
            ctx sceneCanvas (_drawCachedSceneCanvas 10);
            ctx sceneCanvas restore].
Proof.
  split; [reflexivity |]. split; [reflexivity |]. split; [reflexivity |].
  exact (proj2 (@C4_cache_hit_replays (sceneBase noRects) drawScene_
                  (data (cachedGroup true)) (Some sceneCanvas) None 7 eq_refl)
               [n5] sceneCanvas eq_refl eq_refl).
Defined.

(** A clip that applies and a composite operation: the events come out as
    clip block, composite save, child, composite restore, clip restore; with
    [top] this container, or in the hit pass, no composite operation. *)
Example drawChildren_clip_and_composite :
  _drawChildren (H := sceneBase noRects) (draw (H := sceneBase noRects) drawScene_)
                (clippedData 20%float) [n5] drawScene_ (Some sceneCanvas) None
  = Some (map (ctx sceneCanvas)
              [save; transform identityMatrix; beginPath;
               rect (Some 20%float) (Some 20%float) (Some 20%float) (Some 20%float);
               clip; transform identityMatrix;
               save; _applyGlobalCompositeOperation 50]
          ++ [shapeDraw drawScene_ 5 (Some sceneCanvas) None]
          ++ map (ctx sceneCanvas) [restore; restore]) /\
  hasComposition (clippedData 20%float) drawScene_ (Some (clippedData 20%float)) = false /\
  hasComposition (clippedData 20%float) drawHit_ None = false.
Proof. repeat split. Qed.

(** In that log the composite save (position 6) is undone by the restore at
    position 9, and the clip save (position 0) by the restore at position
    10. *)
Lemma C6_witness_clip_and_composite :
  hasComposition (clippedData 20%float) drawScene_ None = true /\
  hasClip (clippedData 20%float) = true /\
  exists log,
    _drawChildren (H := sceneBase noRects) (draw (H := sceneBase noRects) drawScene_)
                  (clippedData 20%float) [n5] drawScene_ (Some sceneCanvas) None
    = Some log /\
    List.length log = 11 /\
    In (6, 9) (save_restore_pairs log) /\
    In (0, 10) (save_restore_pairs log).
Proof.
  split; [reflexivity |]. split; [reflexivity |].
  destruct (@C6_composite_conditions_and_restore_order (sceneBase noRects)
              (clippedData 20%float) [n5] drawScene_ sceneCanvas None)
    as (kids & log & Hk & Hlog & Heq & _ & Hcomp & Hclip).
  exists log. split; [exact Hlog |].
  simpl in Hk. inversion Hk; subst kids. subst log.
  split; [reflexivity |].
  split; [exact (Hcomp eq_refl) | exact (Hclip eq_refl)].
Defined.

Lemma C9_witness_zero_width :
  is_zero 0%float = true /\
  clipFunc (attrs (clippedData 0%float)) = None /\
  hasClip (clippedData 0%float) = false /\
  _drawChildren (H := sceneBase noRects) (draw (H := sceneBase noRects) drawScene_)
                (clippedData 0%float) [n5] drawScene_ (Some sceneCanvas) None
  = Some [ctx sceneCanvas save;
          ctx sceneCanvas (_applyGlobalCompositeOperation 50);
          shapeDraw drawScene_ 5 (Some sceneCanvas) None;
          ctx sceneCanvas restore].
Proof.
  pose proof (proj2 (proj2 (proj2 (@C9_clip_round_trip_and_zero_clip
                                     (sceneBase noRects) (clippedData 0%float))))
                [n5] drawScene_ sceneCanvas None 0%float eq_refl
                (or_introl eq_refl) eq_refl) as [Hclip _].
  split; [reflexivity |]. split; [reflexivity |]. split; [exact Hclip | reflexivity].
Defined.

Lemma C5_witness_nested_cache :
  (forall d, canvasCache (@Node_clearSelfAndDescendantCache (sceneBase noRects) d
                            (Some "absoluteTransform"%string)) = canvasCache d) /\
  nodeAt [0; 0] (_clearSelfAndDescendantCache (H := sceneBase noRects) nestedCacheScene
                   (Some "absoluteTransform"%string)) = Some n5 /\
  exists D,
    nodeAt [0] (_clearSelfAndDescendantCache (H := sceneBase noRects) nestedCacheScene
                  (Some "absoluteTransform"%string)) = Some D /\
    canvasCache (data D) = Some (mkCanvasCache (Some 7) (Some 8)).
Proof.
  assert (Hkeep : forall d,
             canvasCache (@Node_clearSelfAndDescendantCache (sceneBase noRects) d
                            (Some "absoluteTransform"%string)) = canvasCache d)
    by reflexivity.
  destruct (proj2 (@C5_cached_subtree_is_opaque (sceneBase noRects)
                     (Some "absoluteTransform"%string)) nestedCacheScene Hkeep)
    as (Hopaque & Hbitmap & _).
  split; [exact Hkeep |]. split.
  - apply (Hopaque [0] [0] (cachedGroup true) n5); try reflexivity. discriminate.
  - exact (Hbitmap [0] (cachedGroup true) eq_refl).
Defined.

(** The walk reaches the shape at position 1 and the cached group itself,
    and leaves the shape under the cached group with its attribute cache. *)
Example clear_reaches_uncached_only :
  option_map (fun n => attrCache (data n))
    (nodeAt [1] (_clearSelfAndDescendantCache (H := sceneBase noRects) nestedCacheScene
                   (Some "absoluteTransform"%string))) = Some [] /\
  option_map (fun n => attrCache (data n))
    (nodeAt [0] (_clearSelfAndDescendantCache (H := sceneBase noRects) nestedCacheScene
                   (Some "absoluteTransform"%string))) = Some [] /\
  option_map (fun n => attrCache (data n))
    (nodeAt [0; 0] (_clearSelfAndDescendantCache (H := sceneBase noRects) nestedCacheScene
                      (Some "absoluteTransform"%string)))
  = Some ["absoluteTransform"%string].
Proof. repeat split. Qed.

(** The claim of C7 as it is worded fails: the final transform is applied
    to the empty rectangle too.  In a scene translated by (50, 50) a group
    with no children, and a group whose only shape is not visible, report
    (50,50,0,0); with [skipTransform] they report (0,0,0,0). *)
Lemma C7_counterexample_translated_group :
  getChildren emptyGroup = [] /\
  getClientRect (H := translatedBase 50%float 50%float scenarioRects) emptyGroup
                (mkConfig false false false None)
    = mkRect 50%float 50%float 0%float 0%float /\
  hasVisible (H := translatedBase 50%float 50%float scenarioRects) (data hiddenScene)
             (find (H := translatedBase 50%float 50%float scenarioRects) hiddenScene
                   (selString "Shape")) = false /\
  getClientRect (H := translatedBase 50%float 50%float scenarioRects) hiddenScene
                (mkConfig false false false None)
    = mkRect 50%float 50%float 0%float 0%float /\
  getClientRect (H := translatedBase 50%float 50%float scenarioRects) emptyGroup
                (mkConfig true false false None)
    = zeroRect.
Proof. repeat split. Qed.

Lemma C7_witness_hidden_shape :
  (forall s, In s (preorder hiddenScene) ->
             @_isMatch (sceneBase scenarioRects) s (selString "Shape") = true ->
             @_isVisible (sceneBase scenarioRects) (data s) (data hiddenScene) = false) /\
  getClientRect (H := sceneBase scenarioRects) hiddenScene (mkConfig false false false None)
  = zeroRect.
Proof.
  assert (Hno : forall s, In s (preorder hiddenScene) ->
                  @_isMatch (sceneBase scenarioRects) s (selString "Shape") = true ->
                  @_isVisible (sceneBase scenarioRects) (data s) (data hiddenScene) = false).
  { intros s [<- | []] _. reflexivity. }
  split; [exact Hno |].
  exact (proj2 (@C7_empty_client_rect (sceneBase scenarioRects) (data hiddenScene)
                  [Shape shapeB] (or_intror Hno)) eq_refl).
Defined.

(** A container with no child at all. *)
Example empty_group_client_rect :
  getClientRect (H := sceneBase scenarioRects) (group 41 (plainAttrs true) None [])
                (mkConfig false false false None) = zeroRect.
Proof. reflexivity. Qed.


(** With shapeB made visible the rectangle grows to cover both. *)
Example scenario_A_both_visible :
  getClientRect (H := sceneBase scenarioRects)
    (group 30 (plainAttrs true) None
       [Shape shapeA;
        Shape (mkNodeData 32 "Rect"%string "Shape"%string (plainAttrs true) None [])])
    (mkConfig false false false None)
  = mkRect 0%float 0%float 15%float 15%float.
Proof. reflexivity. Qed.


(* ================================================================== *)
(** * Part II, continued -- more of the code *)
(* ================================================================== *)

(** ** Filtering loops *)

(** A [forEach] that pushes the items a test accepts builds the filter of
    the array, after what the result held before. *)
Lemma push_accepted {A : Type} (f : A -> bool) (l : list A) :
  forall acc,
    fold_left (fun results item => if f item then results ++ [item] else results) l acc
    = acc ++ filter f l.
Proof.
  induction l as [| a l IH]; intros acc; simpl.
  - now rewrite app_nil_r.
  - rewrite IH. destruct (f a); [now rewrite <- app_assoc | reflexivity].
Qed.

(** X1.  [getChildren(filterFunc)] returns exactly the children the filter
    accepts, in sequence order; a filter that accepts every child gives what
    the call without a filter gives. *)
Theorem X1_getChildren_filterFunc_filters :
  forall (this : Node) (f : Node -> bool),
    getChildren_filterFunc (Some f) this = filter f (getChildren this) /\
    getChildren_filterFunc (Some (fun _ => true)) this = getChildren_filterFunc None this.
Proof.
  intros this f. unfold getChildren_filterFunc. split.
  - now rewrite push_accepted.
  - rewrite (push_accepted (fun _ : Node => true)). simpl.
    induction (getChildren this) as [| c cs IH]; simpl; [reflexivity | now rewrite IH].
Qed.

(** ** Search, continued *)

Lemma child_size_le (c : Node) (cs : list Node) :
  In c cs -> node_size c <= list_sum (map node_size cs).
Proof.
  induction cs as [| k cs IH]; intros Hin; [contradiction |].
  simpl. destruct Hin as [-> | Hin]; [lia | specialize (IH Hin); lia].
Qed.

(** Every proper descendant is a smaller tree. *)
Lemma preorder_smaller (this : Node) :
  forall n, In n (preorder this) -> node_size n < node_size this.
Proof.
  induction this as [d | d cs IH] using Node_nested_ind; intros n Hn.
  - contradiction.
  - simpl in Hn. apply in_flat_map in Hn. destruct Hn as (c & Hc & Hn).
    pose proof (child_size_le c cs Hc) as Hle. simpl.
    destruct Hn as [<- | Hn]; [lia |].
    rewrite Forall_forall in IH. specialize (IH c Hc n Hn). lia.
Qed.

(** X2.  [find] and [findOne] look below the container only: every node
    [find] returns is a proper descendant that matches, and the container
    itself is never returned, whether or not it matches the selector. *)
Theorem X2_find_returns_proper_descendants `{NodeBase} :
  forall (this : Node) (selector : Selector),
    incl (find this selector) (preorder this) /\
    Forall (fun n => _isMatch n selector = true) (find this selector) /\
    ~ In this (find this selector) /\
    findOne this selector <> Some this.
Proof.
  intros this selector.
  assert (Hincl : incl (find this selector) (preorder this)).
  { intros n Hn. rewrite find_is_filter in Hn. now apply filter_In in Hn. }
  assert (Hself : ~ In this (preorder this)).
  { intros Hin. apply preorder_smaller in Hin. lia. }
  split; [exact Hincl |]. split; [| split].
  - apply Forall_forall. intros n Hn. rewrite find_is_filter in Hn.
    now apply filter_In in Hn.
  - intros Hin. apply Hself. now apply Hincl.
  - intros E. apply Hself. apply Hincl.
    unfold findOne, find in *.
    destruct (_generalFind this selector true) as [| r l] eqn:Hone; [discriminate |].
    inversion E; subst r.
    rewrite find_as_until in Hone. rewrite find_as_until, until_all_plain. simpl.
    destruct (filter (matching selector) (preorder this)) as [| m rest] eqn:Hf.
    + assert (Hno : forall n, In n (preorder this) -> matching selector n = false).
      { intros n Hn. destruct (matching selector n) eqn:Hm; [| reflexivity].
        assert (Hin : In n (filter (matching selector) (preorder this)))
          by (apply filter_In; now split).
        rewrite Hf in Hin. contradiction. }
      destruct (until_no_match selector true (preorder this) Hno [] []) as [_ E1].
      rewrite E1 in Hone. discriminate.
    + destruct (filter_first selector _ Hf) as (before & after & Hpre & Hno & Hm & _).
      destruct (until_first selector before after m Hno Hm) as [_ E2].
      rewrite Hpre, E2 in Hone. simpl in Hone. inversion Hone; subst. now left.
Qed.

(** X3.  [find] on a container is put together from its children: for each
    child in sequence order, the child itself if it matches, then what
    [find] returns on the child; and on a node without children it is
    empty. *)
Theorem X3_find_distributes_over_children `{NodeBase} :
  forall (d : NodeData) (cs : list Node) (selector : Selector),
    find (Container d cs) selector
    = flat_map (fun c => (if _isMatch c selector then [c] else []) ++ find c selector) cs /\
    find (Shape d) selector = [] /\
    find (Container d []) selector = [].
Proof.
  intros d cs selector. split; [| split; reflexivity].
  rewrite find_is_filter. simpl preorder.
  induction cs as [| c cs IH]; simpl; [reflexivity |].
  rewrite filter_app, IH, find_is_filter.
  destruct (_isMatch c selector); reflexivity.
Qed.

(** X4.  [getAllIntersections(pos)] returns, in pre-order, exactly the
    descendants that match 'Shape', are visible and intersect [pos]. *)
Theorem X4_getAllIntersections_filters `{NodeBase} :
  forall (Pos : Type) (intersects : NodeData -> Pos -> bool) (this : Node) (pos : Pos),
    getAllIntersections intersects this pos
    = filter (fun n => _isMatch n (selString "Shape")
                       && (isVisible (data n) && intersects (data n) pos))
             (preorder this).
Proof.
  intros Pos intersects this pos. unfold getAllIntersections.
  rewrite push_accepted, find_is_filter. simpl.
  induction (preorder this) as [| n l IH]; simpl; [reflexivity |].
  destruct (_isMatch n (selString "Shape")); simpl; [| exact IH].
  destruct (isVisible (data n) && intersects (data n) pos); simpl; now rewrite IH.
Qed.

(** ** Drawing, continued *)

Lemma forEach_draw_Forall (P : Event -> Prop) (f : Node -> option (list Event))
      (cs : list Node) :
  Forall (fun child => forall l, f child = Some l -> Forall P l) cs ->
  forall kids, forEach_draw f cs = Some kids -> Forall P kids.
Proof.
  induction 1 as [| child cs Hc _ IH]; intros kids Hk; simpl in Hk.
  - inversion Hk. constructor.
  - destruct (f child) as [l |] eqn:Hl; [| discriminate].
    destruct (forEach_draw f cs) as [l' |]; [| discriminate].
    inversion Hk; subst. apply Forall_app. split; auto.
Qed.

Lemma onContext_Forall (P : Event -> Prop) (canvas : option Canvas)
      (calls : list ContextCall) (l : list Event) :
  (forall c call, In call calls -> P (ctx c call)) ->
  onContext canvas calls = Some l -> Forall P l.
Proof.
  intros HP Hl. destruct canvas as [c |]; [| discriminate].
  simpl in Hl. inversion Hl; subst. apply Forall_forall.
  intros e He. apply in_map_iff in He as (call & <- & Hin). now apply HP.
Qed.

Lemma seq_events_Some (a b : option (list Event)) (l : list Event) :
  seq_events a b = Some l ->
  exists la lb, a = Some la /\ b = Some lb /\ l = la ++ lb.
Proof.
  destruct a as [la |], b as [lb |]; simpl; intros E; try discriminate.
  inversion E. now exists la, lb.
Qed.

(** X5.  With a canvas given, [drawScene] and [drawHit] of any subtree
    return (no call on a context can fail), and the calls they make leave
    the stack of saved context states as they found it: every [save] is
    undone by a [restore] of the same call, and no other state is
    restored. *)
Theorem X5_draw_on_canvas_returns_balanced `{NodeBase} :
  forall (drawMethod : DrawMethod) (this : Node) (c : Canvas) (top : option NodeData),
  exists log,
    draw drawMethod this (Some c) top = Some log /\
    balanced log /\
    snd (pair_saves log 0 []) = [].
Proof.
  intros drawMethod this c top.
  destruct (draw_total drawMethod this c top) as [log Hlog].
  exists log. split; [exact Hlog |].
  pose proof (draw_balanced drawMethod this c top Hlog) as Hb.
  split; [exact Hb | apply Hb].
Qed.

Lemma sent_to_ctx (drawMethod : DrawMethod) (c : Canvas) (top : option NodeData)
      (calls : list ContextCall) :
  Forall (sent_to drawMethod c top) (map (ctx c) calls).
Proof. induction calls; simpl; constructor; [reflexivity | assumption]. Qed.

(** X6.  The canvas, the pass and [top] are handed down unchanged: in the
    log of a draw call on canvas [c], every context call is made on [c],
    and every shape below is drawn by the same method, on [c], with the
    same [top]. *)
Theorem X6_draw_hands_down_canvas_and_top `{NodeBase} :
  forall (drawMethod : DrawMethod) (this : Node) (c : Canvas) (top : option NodeData)
         (log : list Event),
    draw drawMethod this (Some c) top = Some log ->
    Forall (sent_to drawMethod c top) log.
Proof.
  intros drawMethod this. induction this as [d | d cs IH] using Node_nested_ind;
    intros c top log Hl.
  - simpl in Hl. inversion Hl. constructor; [| constructor]. simpl. auto.
  - destruct (children_draw_total drawMethod cs c top) as [kids Hkids].
    assert (Hk : Forall (sent_to drawMethod c top) kids).
    { eapply forEach_draw_Forall; [| exact Hkids].
      eapply Forall_impl; [| exact IH]. intros child Hc l'. apply Hc. }
    assert (Hlog : Forall (sent_to drawMethod c top)
                     (clipPre c d top ++ compositePre c d drawMethod top ++ kids
                      ++ compositePost c d drawMethod top ++ clipPost c d)).
    { unfold clipPre, compositePre, compositePost, clipPost.
      repeat (apply Forall_app; split); try exact Hk.
      - destruct (hasClip d); [apply sent_to_ctx | constructor].
      - destruct (hasComposition d drawMethod top);
          repeat (constructor; try reflexivity).
      - destruct (hasComposition d drawMethod top);
          repeat (constructor; try reflexivity).
      - destruct (hasClip d); repeat (constructor; try reflexivity). }
    destruct drawMethod; simpl in Hl; unfold drawScene, drawHit, _getCanvasCache in Hl.
    + destruct (negb (isVisible d) && negb (isCache c));
        [inversion Hl; constructor |].
      destruct (canvasCache d) as [[[b |] h] |]; simpl in Hl;
        try (inversion Hl; repeat (constructor; try reflexivity));
        erewrite _drawChildren_events in Hl by exact Hkids;
        inversion Hl; subst; exact Hlog.
    + destruct (negb (shouldDrawHit d top)); [inversion Hl; constructor |].
      destruct (canvasCache d) as [[sc [b |]] |]; simpl in Hl;
        try (inversion Hl; repeat (constructor; try reflexivity));
        erewrite _drawChildren_events in Hl by exact Hkids;
        inversion Hl; subst; exact Hlog.
Qed.

(** X7.  The hit pass never composites and never touches the scene side:
    whatever canvas is given or resolved, the log of [drawHit] holds no
    [_applyGlobalCompositeOperation], no replay of a cached scene bitmap
    and no [drawScene] of a shape. *)
Theorem X7_drawHit_has_no_scene_event `{NodeBase} :
  forall (this : Node) (can : option Canvas) (top : option NodeData) (log : list Event),
    draw drawHit_ this can top = Some log ->
    Forall (fun e => scene_only e = false) log.
Proof.
  intros this. induction this as [d | d cs IH] using Node_nested_ind;
    intros can top log Hl.
  - simpl in Hl. inversion Hl. repeat constructor.
  - simpl in Hl. unfold drawHit, _getCanvasCache in Hl.
    destruct (negb (shouldDrawHit d top)); [inversion Hl; constructor |].
    set (canvas := match can with
                   | Some c => Some c
                   | None => option_map hitCanvas (getLayer d)
                   end) in Hl.
    assert (Hcalls : forall calls l,
               Forall (fun call => forall c, scene_only (ctx c call) = false) calls ->
               onContext canvas calls = Some l ->
               Forall (fun e => scene_only e = false) l).
    { intros calls l Hc. apply onContext_Forall. intros c call Hin.
      rewrite Forall_forall in Hc. now apply Hc. }
    assert (Hreplay : forall l,
               onContext canvas
                 [save; transform (getAbsoluteTransform d top);
                  _drawCachedHitCanvas (_id d); restore] = Some l ->
               Forall (fun e => scene_only e = false) l).
    { intros l. apply Hcalls. repeat constructor. }
    assert (Hbody : _drawChildren (draw drawHit_) d cs drawHit_ canvas top = Some log ->
                    Forall (fun e => scene_only e = false) log).
    { clear Hl. intros Hl. unfold _drawChildren in Hl.
      assert (Hcomp : hasComposition d drawHit_ top = false)
        by (unfold hasComposition; apply andb_false_r).
      rewrite Hcomp in Hl.
      apply seq_events_Some in Hl as (l1 & r1 & E1 & Hl & ->).
      apply seq_events_Some in Hl as (l2 & r2 & E2 & Hl & ->).
      apply seq_events_Some in Hl as (l3 & r3 & E3 & Hl & ->).
      apply seq_events_Some in Hl as (l4 & l5 & E4 & E5 & ->).
      inversion E2; inversion E4; subst l2 l4.
      repeat (apply Forall_app; split); try constructor.
      - destruct (hasClip d); [| inversion E1; constructor].
        revert E1. apply Hcalls. unfold clipBlock.
        destruct (clipFunc (attrs d)); repeat constructor.
      - eapply forEach_draw_Forall; [| exact E3].
        eapply Forall_impl; [| exact IH]. intros child Hc l'. apply Hc.
      - destruct (hasClip d); [| inversion E5; constructor].
        revert E5. apply Hcalls. repeat constructor. }
    destruct (canvasCache d) as [[sc [b |]] |]; auto.
Qed.

(** X8.  A draw call with no canvas given, on a container that has no layer
    to take one from, and that passes the gate of its pass: when the
    container has to touch a context (a cached bitmap to replay, a clip or a
    composite operation) the call fails with a TypeError; when it has not,
    it draws its children in sequence order, without a canvas, and adds no
    call of its own. *)
Theorem X8_draw_without_canvas `{NodeBase} :
  forall (drawMethod : DrawMethod) (d : NodeData) (cs : list Node) (top : option NodeData),
    resolveCanvas drawMethod d None = None ->
    passesGate drawMethod d None top = true ->
    draw drawMethod (Container d cs) None top =
    if needsContext drawMethod d top then None
    else forEach_draw (fun child => draw drawMethod child None top) cs.
Proof.
  intros drawMethod d cs top Hcan Hgate.
  assert (Hbody : _drawChildren (draw drawMethod) d cs drawMethod None top =
                  if hasClip d || hasComposition d drawMethod top then None
                  else forEach_draw (fun child => draw drawMethod child None top) cs).
  { unfold _drawChildren.
    destruct (hasClip d), (hasComposition d drawMethod top); simpl; try reflexivity.
    destruct (forEach_draw _ cs) as [kids |]; simpl; [| reflexivity].
    now rewrite app_nil_r. }
  unfold needsContext, cachedFor, resolveCanvas, passesGate, _getCanvasCache in *.
  destruct drawMethod; simpl in *; unfold drawScene, drawHit, _getCanvasCache.
  - destruct (getLayer d); [discriminate |]. simpl.
    rewrite orb_false_r in Hgate. rewrite Hgate. simpl.
    destruct (canvasCache d) as [[[b |] h] |]; simpl; try reflexivity; exact Hbody.
  - destruct (getLayer d); [discriminate |]. simpl.
    rewrite Hgate. simpl.
    destruct (canvasCache d) as [[sc [b |]] |]; simpl; try reflexivity; exact Hbody.
Qed.

(** ** Client rectangle, continued *)

(** X9.  A group with no children, put anywhere among the children of a
    container, leaves the client rectangle of the container as it was,
    whenever the empty rectangle of the group stays empty under the group's
    transform (the case the source skips as 'invisible children (like empty
    groups)') and the group is not itself matched by 'Shape'. *)
Theorem X9_empty_group_leaves_client_rect `{NodeBase} :
  forall (d g : NodeData) (before after : list Node) (config : ClientRectConfig),
    _isMatch (Container g []) (selString "Shape") = false ->
    degenerate (_transformedRect g zeroRect (Some d)) = true ->
    getClientRect (Container d (before ++ Container g [] :: after)) config
    = getClientRect (Container d (before ++ after)) config.
Proof.
  intros d g before after config Hm Hz.
  assert (Hb : childBounds d (before ++ Container g [] :: after) config
               = childBounds d (before ++ after) config).
  { assert (Hskip : forall acc,
               accumulate (fun child => getClientRect child (childConfig d config)) acc
                          (Container g []) = acc).
    { intros acc. unfold accumulate. cbn [data].
      destruct (negb (visible (attrs g))); [reflexivity |].
      change (getClientRect (Container g []) (childConfig d config))
        with (_transformedRect g zeroRect (Some d)).
      now rewrite Hz. }
    unfold childBounds. rewrite !fold_left_app. cbn [fold_left].
    now rewrite Hskip. }
  assert (Hs : find (Container d (before ++ Container g [] :: after)) (selString "Shape")
               = find (Container d (before ++ after)) (selString "Shape")).
  { rewrite !find_is_filter. cbn [preorder]. rewrite !flat_map_app, !filter_app.
    cbn [flat_map preorder app filter]. now rewrite Hm. }
  change (getClientRect (Container d (before ++ Container g [] :: after)) config)
    with (let r := selfRect (childBounds d (before ++ Container g [] :: after) config)
                     (hasVisible d (find (Container d (before ++ Container g [] :: after))
                                         (selString "Shape"))) in
          if negb (skipTransform config)
          then _transformedRect d r (relativeTo config) else r).
  rewrite Hb, Hs. reflexivity.
Qed.

(** ** The object store, continued *)

Module MutationMoreFacts.
Import Mutation MutationMore MutationFacts.

Unset Implicit Arguments.

(** *** [isAncestorOf] *)

Lemma up_None (s : Store) (k : nat) : up s k None = None.
Proof. now destruct k. Qed.

Lemma isAncestorOf_loop_true (s : Store) (this : ref) :
  forall fuel p,
    isAncestorOf_loop s fuel this p = Some true ->
    exists k, k <= fuel /\ up s k p = Some this.
Proof.
  induction fuel as [| fuel IH]; intros [q |] E; simpl in E; try discriminate.
  - destruct (Nat.eqb_spec q this) as [Heq | Hne]; [| discriminate].
    exists 0. split; [lia | now rewrite Heq].
  - destruct (Nat.eqb_spec q this) as [Heq | Hne].
    + exists 0. split; [lia | now rewrite Heq].
    + destruct (IH _ E) as (k & Hk & Hup). exists (S k). split; [lia | exact Hup].
Qed.

Lemma isAncestorOf_loop_false (s : Store) (this : ref) :
  forall fuel p,
    isAncestorOf_loop s fuel this p = Some false ->
    forall k, up s k p <> Some this.
Proof.
  induction fuel as [| fuel IH]; intros [q |] E k; simpl in E;
    try (rewrite up_None; discriminate).
  - destruct (Nat.eqb_spec q this); discriminate.
  - destruct (Nat.eqb_spec q this) as [Heq | Hne]; [discriminate |].
    destruct k as [| k]; simpl; [congruence | now apply IH].
Qed.

Lemma isAncestorOf_loop_None (s : Store) (this : ref) :
  forall fuel p,
    isAncestorOf_loop s fuel this p = None ->
    forall k, k <= fuel -> exists q, up s k p = Some q /\ q <> this.
Proof.
  induction fuel as [| fuel IH]; intros [q |] E k Hk; simpl in E; try discriminate.
  - destruct (Nat.eqb_spec q this) as [Heq | Hne]; [discriminate |].
    replace k with 0 by lia. now exists q.
  - destruct (Nat.eqb_spec q this) as [Heq | Hne]; [discriminate |].
    destruct k as [| k]; simpl; [now exists q |].
    apply IH; [exact E | lia].
Qed.

Lemma isAncestorOf_loop_reaches (s : Store) (this : ref) :
  forall k fuel p,
    k <= fuel -> up s k p = Some this -> isAncestorOf_loop s fuel this p = Some true.
Proof.
  induction k as [| k IH]; intros fuel p Hk Hup; simpl in Hup.
  - subst p. destruct fuel; simpl; now rewrite Nat.eqb_refl.
  - destruct p as [q |]; [| discriminate].
    destruct fuel as [| fuel]; [lia |]. simpl.
    destruct (q =? this); [reflexivity |].
    apply IH; [lia | exact Hup].
Qed.

Lemma up_add (s : Store) :
  forall k j p, up s (k + j) p = up s j (up s k p).
Proof.
  induction k as [| k IH]; intros j p; simpl; [reflexivity |].
  destruct p as [q |]; [apply IH | now rewrite up_None].
Qed.

(** X10.  [isAncestorOf(node)] answers true exactly when the container is
    met on the chain of parents of [node], and false only when it is
    nowhere on that chain; the node itself is not looked at.  The loop
    can only fail to answer within [fuel] turns when the first [fuel]
    parents all exist and differ from the container, so on a chain that
    ends, or that reaches the container, within [fuel] steps it answers. *)
Theorem X10_isAncestorOf_follows_parents :
  forall (s : Store) (fuel : nat) (this node : ref),
    (isAncestorOf s fuel this node = Some true <->
     exists k, k <= fuel /\ up s k (parent s node) = Some this) /\
    (isAncestorOf s fuel this node = Some false ->
     forall k, up s k (parent s node) <> Some this) /\
    (isAncestorOf s fuel this node = None ->
     forall k, k <= fuel -> exists q, up s k (parent s node) = Some q /\ q <> this) /\
    (parent s node = None -> isAncestorOf s fuel this node = Some false).
Proof.
  intros s fuel this node. unfold isAncestorOf. split; [| split; [| split]].
  - split; [apply isAncestorOf_loop_true |].
    intros (k & Hk & Hup). now apply (isAncestorOf_loop_reaches s this k).
  - apply isAncestorOf_loop_false.
  - apply isAncestorOf_loop_None.
  - intros ->. now destruct fuel.
Qed.

(** X16.  [isAncestorOf] composes: an ancestor of an ancestor of a node is
    an ancestor of the node, found once the loop is given the turns of both
    walks and one more. *)
Theorem X16_isAncestorOf_composes :
  forall (s : Store) (f1 f2 fuel : nat) (a b c : ref),
    isAncestorOf s f1 a b = Some true ->
    isAncestorOf s f2 b c = Some true ->
    f1 + f2 + 1 <= fuel ->
    isAncestorOf s fuel a c = Some true.
Proof.
  intros s f1 f2 fuel a b c Hab Hbc Hfuel. unfold isAncestorOf in *.
  apply isAncestorOf_loop_true in Hab as (k1 & Hk1 & Hup1).
  apply isAncestorOf_loop_true in Hbc as (k2 & Hk2 & Hup2).
  apply (isAncestorOf_loop_reaches s a (k2 + S k1)); [lia |].
  rewrite up_add, Hup2. exact Hup1.
Qed.

(** *** [_setChildrenIndices] *)

(** X11.  [_setChildrenIndices()] on a container whose child array holds no
    node twice gives every child its position as index, writes no other
    index, leaves every parent and every child array as it was, and
    requests one redraw. *)
Theorem X11_setChildrenIndices_repairs_indices :
  forall (this : ref) (s : Store) (cs : list ref),
    children s this = Some cs ->
    NoDup cs ->
    let r := _setChildrenIndices this s in
    outcome r = Returned tt /\
    (forall i K, nth_error cs i = Some K -> index (final r) K = i) /\
    (forall K, ~ In K cs -> index (final r) K = index s K) /\
    parent (final r) = parent s /\
    children (final r) = children s /\
    effects (final r) = effects s ++ [_requestDraw this].
Proof.
  intros this [p i c e] cs Hc Hnd. simpl in Hc.
  unfold _setChildrenIndices, bind, get. simpl. rewrite Hc.
  destruct (forEach_set_index p c e cs i 0) as (Ho & Hf & _).
  rewrite Ho, Hf. simpl. repeat split.
  - intros k K HK. now rewrite (renumber_position cs i 0 k K Hnd HK).
  - intros K HK. now apply renumber_outside.
Qed.

(** *** [removeChildren] *)

Lemma remove_orphan (s : Store) (n : ref) :
  parent s n = None ->
  final (remove n s)
  = mkStore (update (parent s) n None) (update (index s) n 0) (children s) (effects s).
Proof.
  destruct s as [p i c e]. simpl. intros Hp.
  unfold remove. unfold bind at 1. simpl. rewrite Hp.
  unfold bind. simpl. reflexivity.
Qed.

(** One turn of the loop leaves the child without parent, at index 0, and
    requests nothing. *)
Lemma removeChildren_turn_child (child : ref) (s : Store) :
  let r := (set_parent child None ;;; set_index child 0 ;;; remove child) s in
  parent (final r) child = None /\ index (final r) child = 0 /\
  effects (final r) = effects s.
Proof.
  destruct s as [p i c e].
  set (s1 := mkStore (update p child None) (update i child 0) c e).
  assert (Hp1 : parent s1 child = None) by apply update_same.
  destruct (remove_run s1 child) as (Ho & _).
  assert (E : (set_parent child None ;;; set_index child 0 ;;; remove child)
                (mkStore p i c e)
              = mkRun (outcome (remove child s1)) (final (remove child s1))
                      (mkStore (update p child None) i c e :: s1 :: steps (remove child s1))).
  { unfold bind, set_parent, set_index, modify.
    cbn [outcome final steps parent index children effects app].
    fold s1. rewrite Ho. reflexivity. }
  rewrite E. cbn [outcome final]. rewrite (remove_orphan s1 child Hp1).
  subst s1. cbn [parent index children effects].
  now rewrite !update_same.
Qed.

Lemma removeChildren_loop_children (cs : list ref) :
  forall n s,
    let r := forEach cs n
               (fun child _ => set_parent child None ;;; set_index child 0 ;;; remove child)
               s in
    (forall K, In K cs -> parent (final r) K = None /\ index (final r) K = 0) /\
    effects (final r) = effects s.
Proof.
  induction cs as [| c cs IH]; intros n s; simpl.
  - split; [intros K [] | reflexivity].
  - destruct (removeChildren_turn c s) as (Ho & _ & _).
    destruct (removeChildren_turn_child c s) as (Hpc & Hic & Hec).
    rewrite (bind_returned _ _ _ _ Ho). cbn [outcome final].
    set (s1 := final ((set_parent c None ;;; set_index c 0 ;;; remove c) s)) in *.
    destruct (IH (S n) s1) as (Hin & He).
    destruct (removeChildren_loop cs (S n) s1) as (_ & _ & Hrest).
    split; [| congruence].
    intros K [<- | HK]; [| now apply Hin].
    destruct (in_dec Nat.eq_dec c cs) as [Hc | Hc]; [now apply Hin |].
    destruct (Hrest c Hc) as [E1 E2]. split; congruence.
Qed.

(** The run of [removeChildren]. *)
Lemma removeChildren_run :
  forall (this : ref) (s : Store),
    let cs := match children s this with Some l => l | None => [] end in
    let r := removeChildren this s in
    outcome r = Returned tt /\
    children (final r) this = Some [] /\
    (forall C, C <> this -> children (final r) C = children s C) /\
    (forall K, In K cs -> parent (final r) K = None /\ index (final r) K = 0) /\
    (forall K, ~ In K cs -> parent (final r) K = parent s K /\ index (final r) K = index s K) /\
    effects (final r) = effects s.
Proof.
  intros this s cs r.
  destruct (removeChildren_loop cs 0 s) as (Ho & Hc & Hrest).
  destruct (removeChildren_loop_children cs 0 s) as (Hin & He).
  assert (E : r = let s1 := final (forEach cs 0
                                     (fun child _ =>
                                        set_parent child None ;;; set_index child 0 ;;;
                                        remove child) s) in
                  mkRun (Returned tt)
                        (mkStore (parent s1) (index s1) (update (children s1) this (Some []))
                                 (effects s1))
                        (steps (forEach cs 0
                                  (fun child _ =>
                                     set_parent child None ;;; set_index child 0 ;;;
                                     remove child) s)
                         ++ [mkStore (parent s1) (index s1)
                                     (update (children s1) this (Some [])) (effects s1)])).
  { subst r. unfold removeChildren.
    rewrite (bind_returned _ _ s cs) by reflexivity.
    change (final (getChildren this s)) with s. cbn [outcome final steps app].
    rewrite (bind_returned _ _ _ _ Ho). reflexivity. }
  rewrite E. cbn [outcome final parent index children effects].
  split; [reflexivity |]. split; [apply update_same |].
  split; [intros C HC; rewrite update_other by exact HC; now rewrite Hc |].
  split; [exact Hin |]. split; [exact Hrest | exact He].
Qed.

(** X12.  [removeChildren()] always returns.  Afterwards the container has
    an empty child array (also when it had none), every node that was in
    it has no parent and index 0, no other node and no other container is
    touched, and no redraw is requested: the children are reset beforehand,
    so that their [remove()] finds no parent to renumber. *)
Theorem X12_removeChildren_detaches_every_child :
  forall (this : ref) (s : Store),
    let cs := match children s this with Some l => l | None => [] end in
    let r := removeChildren this s in
    outcome r = Returned tt /\
    children (final r) this = Some [] /\
    (forall C, C <> this -> children (final r) C = children s C) /\
    (forall K, In K cs -> parent (final r) K = None /\ index (final r) K = 0) /\
    (forall K, ~ In K cs -> parent (final r) K = parent s K /\ index (final r) K = index s K) /\
    effects (final r) = effects s.
Proof. exact removeChildren_run. Qed.

(** *** [add] *)

Section AddMore.
Variable accepts : ref -> ref -> bool.

(** Whenever [add] of one child returns, the child has the container as
    parent and no other parent has changed. *)
Lemma add_one_parent :
  forall fuel this child s,
    outcome (add accepts fuel this [child] s) = Returned tt ->
    forall K, parent (final (add accepts fuel this [child] s)) K
              = if K =? child then Some this else parent s K.
Proof.
  induction fuel as [| fuel IH]; intros this child s Ho K; [discriminate |].
  destruct (parent s child) as [q |] eqn:Hp.
  - destruct (add_moves accepts fuel this child q s Hp) as (Eo & Ef & _).
    rewrite Eo in Ho. rewrite Ef, (IH _ _ _ Ho K).
    destruct (remove_run s child) as (_ & Hpar & _). rewrite Hpar.
    unfold update. now destruct (K =? child).
  - destruct (attach_run accepts fuel this child s Hp) as [Hyes Hno].
    destruct (accepts this child).
    + destruct (Hyes eq_refl) as (_ & -> & _). reflexivity.
    + destruct (Hno eq_refl) as (Eo & _). rewrite Eo in Ho. discriminate.
Qed.

Lemma add_each_parent (fuel : nat) (this : ref) :
  forall args n s,
    outcome (forEach args n (fun arg _ => add accepts fuel this [arg]) s) = Returned tt ->
    forall K, parent (final (forEach args n (fun arg _ => add accepts fuel this [arg]) s)) K
              = if existsb (Nat.eqb K) args then Some this else parent s K.
Proof.
  induction args as [| a rest IH]; intros n s Ho K; cbn [forEach existsb] in *.
  - reflexivity.
  - destruct (bind_returned_inv _ _ _ _ Ho) as [[] Ho1].
    rewrite (bind_returned _ _ _ _ Ho1) in Ho |- *. cbn [outcome final] in *.
    rewrite (IH _ _ Ho K), (add_one_parent _ _ _ _ Ho1 K).
    destruct (K =? a), (existsb (Nat.eqb K) rest); reflexivity.
Qed.

Lemma add_parents (fuel : nat) (this : ref) (args : list ref) (s : Store) :
  outcome (add accepts fuel this args s) = Returned tt ->
  forall K, parent (final (add accepts fuel this args s)) K
            = if existsb (Nat.eqb K) args then Some this else parent s K.
Proof.
  intros Ho K. destruct fuel as [| fuel]; [discriminate |].
  destruct args as [| c [| c2 rest]].
  - discriminate.
  - rewrite (add_one_parent _ _ _ _ Ho K). cbn [existsb]. now rewrite orb_false_r.
  - cbn [add] in *. now apply add_each_parent.
Qed.

Lemma existsb_eqb_In (K : ref) (args : list ref) :
  existsb (Nat.eqb K) args = true <-> In K args.
Proof.
  rewrite existsb_exists. split.
  - intros (x & Hx & E). apply Nat.eqb_eq in E. now subst.
  - intros HK. exists K. split; [exact HK | apply Nat.eqb_refl].
Qed.

(** The loop of [add] over several children without a parent. *)
Lemma add_each_fresh (fuel : nat) (this : ref) :
  forall args n s cs,
    children s this = Some cs ->
    NoDup args ->
    (forall a, In a args -> parent s a = None /\ accepts this a = true) ->
    let r := forEach args n (fun arg _ => add accepts (S fuel) this [arg]) s in
    outcome r = Returned tt /\
    children (final r) this = Some (cs ++ args) /\
    (forall C, C <> this -> children (final r) C = children s C) /\
    (forall i a, nth_error args i = Some a -> index (final r) a = List.length cs + i) /\
    (forall K, ~ In K args -> index (final r) K = index s K).
Proof.
  induction args as [| a rest IH]; intros n s cs Hc Hnd Hfresh; cbn [forEach].
  - cbn [ret outcome final]. rewrite app_nil_r. repeat split; auto.
    intros [| i] b Hb; discriminate.
  - inversion Hnd as [| ? ? Ha Hnd']; subst.
    destruct (Hfresh a (or_introl eq_refl)) as [Hpa Hacc].
    destruct (attach_run accepts fuel this a s Hpa) as [Hyes _].
    destruct (Hyes Hacc) as (Ho1 & Ep & Ei & Ec & _). clear Hyes.
    rewrite (bind_returned _ _ _ _ Ho1). cbn [outcome final].
    set (s1 := final (add accepts (S fuel) this [a] s)) in *.
    assert (Hc1 : children s1 this = Some (cs ++ [a])).
    { rewrite Ec. unfold pushed. rewrite Hc. apply update_same. }
    assert (Hfresh1 : forall b, In b rest -> parent s1 b = None /\ accepts this b = true).
    { intros b Hb. destruct (Hfresh b (or_intror Hb)) as [Hpb Hab].
      split; [| exact Hab]. rewrite Ep, update_other; [exact Hpb |].
      intros ->. contradiction. }
    destruct (IH (S n) s1 (cs ++ [a]) Hc1 Hnd' Hfresh1) as (Ho & Hch & Hoth & Hidx & Hout).
    rewrite Hc in Ei.
    split; [exact Ho |]. split; [now rewrite Hch, <- app_assoc |].
    split; [| split].
    + intros C HC. rewrite (Hoth C HC), Ec. unfold pushed. rewrite Hc.
      now apply update_other.
    + intros [| i] b Hb; simpl in Hb.
      * inversion Hb; subst b. rewrite (Hout a Ha), Ei, update_same. lia.
      * rewrite (Hidx i b Hb), length_app. simpl. lia.
    + intros K HK. rewrite Hout by (intros Hin; apply HK; now right).
      rewrite Ei. apply update_other. intros ->. apply HK. now left.
Qed.

Lemma forEach_single (body : ref -> nat -> M unit) (c : ref) (n : nat) (s : Store) :
  outcome (forEach [c] n body s) = outcome (body c n s) /\
  final (forEach [c] n body s) = final (body c n s).
Proof.
  cbn [forEach]. unfold bind. destruct (outcome (body c n s)) as [[] | |]; now split.
Qed.

End AddMore.

(** The run of [add] on children without a parent. *)
Lemma add_fresh_run :
  forall (accepts : ref -> ref -> bool) (fuel : nat) (this : ref) (args : list ref)
         (s : Store) (cs : list ref),
    children s this = Some cs ->
    args <> [] ->
    NoDup args ->
    (forall a, In a args -> parent s a = None /\ accepts this a = true) ->
    let r := add accepts (S (S fuel)) this args s in
    outcome r = Returned tt /\
    children (final r) this = Some (cs ++ args) /\
    (forall C, C <> this -> children (final r) C = children s C) /\
    (forall i a, nth_error args i = Some a ->
                 parent (final r) a = Some this /\ index (final r) a = List.length cs + i) /\
    (forall K, ~ In K args ->
               parent (final r) K = parent s K /\ index (final r) K = index s K).
Proof.
  intros accepts fuel this args s cs Hc Hne Hnd Hfresh r.
  assert (Hloop : outcome r = Returned tt /\
                  children (final r) this = Some (cs ++ args) /\
                  (forall C, C <> this -> children (final r) C = children s C) /\
                  (forall i a, nth_error args i = Some a ->
                               index (final r) a = List.length cs + i) /\
                  (forall K, ~ In K args -> index (final r) K = index s K)).
  { pose proof (add_each_fresh accepts fuel this args 0 s cs Hc Hnd Hfresh) as Hall.
    cbv zeta in Hall.
    subst r. destruct args as [| c [| c2 rest]].
    - contradiction.
    - destruct (forEach_single (fun arg _ => add accepts (S fuel) this [arg]) c 0 s)
        as [Eo Ef].
      rewrite Eo, Ef in Hall.
      destruct (Hfresh c (or_introl eq_refl)) as [Hpc Hacc].
      destruct (attach_run accepts (S fuel) this c s Hpc) as [Hyes _].
      destruct (Hyes Hacc) as (Ho2 & Ep2 & Ei2 & Ec2 & _).
      destruct (attach_run accepts fuel this c s Hpc) as [Hyes1 _].
      destruct (Hyes1 Hacc) as (Ho1 & Ep1 & Ei1 & Ec1 & _).
      rewrite Ei1, Ec1 in Hall. rewrite Ho2, Ei2, Ec2. 
      destruct Hall as (_ & H2 & H3 & H4 & H5). repeat split; assumption.
    - cbn [add]. exact Hall. }
  destruct Hloop as (Ho & Hch & Hoth & Hidx & Hout).
  pose proof (add_parents accepts _ this args s Ho) as Hpar. fold r in Hpar.
  split; [exact Ho |]. split; [exact Hch |]. split; [exact Hoth |]. split.
  - intros i a Ha. split; [| now apply Hidx].
    rewrite Hpar. apply nth_error_In in Ha.
    now apply (existsb_eqb_In a args) in Ha as ->.
  - intros K HK. split; [| now apply Hout].
    rewrite Hpar. destruct (existsb (Nat.eqb K) args) eqn:E; [| reflexivity].
    apply existsb_eqb_In in E. contradiction.
Qed.

(** X13.  [add(c1, ..., cn)] of distinct children that have no parent and
    that [_validateAdd] accepts, on a container that has a child array:
    the call returns, the children are appended to the array in argument
    order behind those already there, each gets the container as parent
    and its position as index, and no other node and no other container is
    touched. *)
Theorem X13_add_appends_in_argument_order :
  forall (accepts : ref -> ref -> bool) (fuel : nat) (this : ref) (args : list ref)
         (s : Store) (cs : list ref),
    children s this = Some cs ->
    args <> [] ->
    NoDup args ->
    (forall a, In a args -> parent s a = None /\ accepts this a = true) ->
    let r := add accepts (S (S fuel)) this args s in
    outcome r = Returned tt /\
    children (final r) this = Some (cs ++ args) /\
    (forall C, C <> this -> children (final r) C = children s C) /\
    (forall i a, nth_error args i = Some a ->
                 parent (final r) a = Some this /\ index (final r) a = List.length cs + i) /\
    (forall K, ~ In K args ->
               parent (final r) K = parent s K /\ index (final r) K = index s K).
Proof. exact add_fresh_run. Qed.

(** X17.  Round trip: children without a parent, at index 0, added to an
    empty container and then taken out again by [removeChildren()] are
    where they were: every parent, every index and every child array of
    the store is as before the two calls. *)
Theorem X17_add_then_removeChildren_round_trip :
  forall (accepts : ref -> ref -> bool) (fuel : nat) (this : ref) (args : list ref)
         (s : Store),
    children s this = Some [] ->
    args <> [] ->
    NoDup args ->
    (forall a, In a args ->
               parent s a = None /\ index s a = 0 /\ accepts this a = true) ->
    let s1 := final (add accepts (S (S fuel)) this args s) in
    let r := removeChildren this s1 in
    outcome r = Returned tt /\
    (forall K, parent (final r) K = parent s K /\ index (final r) K = index s K) /\
    (forall C, children (final r) C = children s C).
Proof.
  intros accepts fuel this args s Hc Hne Hnd Hfresh s1 r.
  assert (Hfresh' : forall a, In a args -> parent s a = None /\ accepts this a = true).
  { intros a Ha. destruct (Hfresh a Ha) as (Hp & _ & Hacc). now split. }
  destruct (add_fresh_run accepts fuel this args s [] Hc Hne Hnd Hfresh')
    as (_ & Hch & Hoth & _ & Hout).
  fold s1 in Hch, Hoth, Hout. simpl in Hch.
  destruct (removeChildren_run this s1) as (Ho & Hempty & Hoth2 & Hin2 & Hout2 & _).
  fold r in Ho, Hempty, Hoth2, Hin2, Hout2. rewrite Hch in Hin2, Hout2.
  split; [exact Ho |]. split.
  - intros K. destruct (in_dec Nat.eq_dec K args) as [HK | HK].
    + destruct (Hin2 K HK) as [-> ->]. destruct (Hfresh K HK) as (-> & -> & _).
      now split.
    + destruct (Hout2 K HK) as [-> ->]. now apply Hout.
  - intros C. destruct (Nat.eq_dec C this) as [-> | HC].
    + now rewrite Hempty, Hc.
    + rewrite (Hoth2 C HC). now apply Hoth.
Qed.

(** X14.  Whenever [add] returns, every argument has the container as its
    parent, so that [isAncestorOf] answers true for it at once, and the
    parent of no other node has changed. *)
Theorem X14_add_returned_makes_ancestor :
  forall (accepts : ref -> ref -> bool) (fuel : nat) (this : ref) (args : list ref)
         (s : Store),
    outcome (add accepts fuel this args s) = Returned tt ->
    let s' := final (add accepts fuel this args s) in
    (forall a, In a args ->
               parent s' a = Some this /\
               forall fuel', isAncestorOf s' fuel' this a = Some true) /\
    (forall K, ~ In K args -> parent s' K = parent s K).
Proof.
  intros accepts fuel this args s Ho s'.
  pose proof (add_parents accepts fuel this args s Ho) as Hpar. fold s' in Hpar.
  split.
  - intros a Ha.
    assert (Hp : parent s' a = Some this).
    { rewrite Hpar. now apply (existsb_eqb_In a args) in Ha as ->. }
    split; [exact Hp |]. intros fuel'. unfold isAncestorOf. rewrite Hp.
    destruct fuel'; simpl; now rewrite Nat.eqb_refl.
  - intros K HK. rewrite Hpar.
    destruct (existsb (Nat.eqb K) args) eqn:E; [| reflexivity].
    apply existsb_eqb_In in E. contradiction.
Qed.

(** X15.  A child that [_validateAdd] rejects: when it has no parent, [add]
    throws before it writes anything; when it sits in another container,
    [add] throws after the child has been taken out of that container, and
    leaves it without a parent.  [add()] without an argument throws as
    well, and writes nothing. *)
Theorem X15_add_rejected_child :
  forall (accepts : ref -> ref -> bool) (fuel : nat) (this child : ref) (s : Store),
    accepts this child = false ->
    (parent s child = None ->
     let r := add accepts (S fuel) this [child] s in
     outcome r = Thrown /\ final r = s /\ steps r = []) /\
    (forall q, parent s child = Some q -> q <> this ->
     let r := add accepts (S (S fuel)) this [child] s in
     outcome r = Thrown /\
     parent (final r) child = None /\
     children (final r) = detached s child) /\
    (let r := add accepts (S fuel) this [] s in
     outcome r = Thrown /\ final r = s /\ steps r = []).
Proof.
  intros accepts fuel this child s Hrej. split; [| split].
  - intros Hp. destruct (attach_run accepts fuel this child s Hp) as [_ Hno].
    exact (Hno Hrej).
  - intros q Hp _.
    destruct (add_moves accepts (S fuel) this child q s Hp) as (Eo & Ef & _).
    destruct (remove_run s child) as (_ & Hpar & _ & Hch & _).
    assert (Hp' : parent (final (remove child s)) child = None)
      by (rewrite Hpar; apply update_same).
    destruct (attach_run accepts fuel this child _ Hp') as [_ Hno].
    destruct (Hno Hrej) as (Eo2 & Ef2 & _).
    cbv zeta. rewrite Eo, Ef, Eo2, Ef2. repeat split; assumption.
  - repeat split.
Qed.

(** *** Worked instances on the store *)

(** The chain 4 -> 3 -> 0: container 0 is an ancestor of 4, 4 is not one of
    0, and on a cycle that does not hold the container the loop does not
    end. *)
Example isAncestorOf_on_chains :
  isAncestorOf chainStore 5 0 4 = Some true /\
  isAncestorOf chainStore 5 4 0 = Some false /\
  isAncestorOf chainStore 5 4 4 = Some false /\
  isAncestorOf chainStore 0 0 4 = None /\
  isAncestorOf cyclicStore 50 7 1 = None.
Proof. repeat split. Qed.

Lemma X11_witness_stale_indices :
  children staleStore 0 = Some [5; 6] /\
  NoDup [5; 6] /\
  index staleStore 5 = 7 /\
  index (final (_setChildrenIndices 0 staleStore)) 5 = 0 /\
  index (final (_setChildrenIndices 0 staleStore)) 6 = 1 /\
  index (final (_setChildrenIndices 0 staleStore)) 9 = 7 /\
  effects (final (_setChildrenIndices 0 staleStore)) = [_requestDraw 0].
Proof.
  assert (Hnd : NoDup [5; 6]).
  { constructor; [simpl; intros [E | []]; discriminate |].
    constructor; [intros [] | constructor]. }
  destruct (X11_setChildrenIndices_repairs_indices 0 staleStore [5; 6] eq_refl Hnd)
    as (_ & Hin & Hout & _ & _ & He).
  split; [reflexivity |]. split; [exact Hnd |]. split; [reflexivity |].
  split; [exact (Hin 0 5 eq_refl) |]. split; [exact (Hin 1 6 eq_refl) |].
  split; [| exact He].
  apply Hout. simpl. intros [E | [E | []]]; discriminate.
Defined.

Lemma X13_witness_three_children :
  children emptyStore 0 = Some [] /\
  NoDup [2; 3; 4] /\
  (forall a, In a [2; 3; 4] -> parent emptyStore a = None /\ pickyAccepts 0 a = true) /\
  outcome (add pickyAccepts 2 0 [2; 3; 4] emptyStore) = Returned tt /\
  children (final (add pickyAccepts 2 0 [2; 3; 4] emptyStore)) 0 = Some [2; 3; 4] /\
  parent (final (add pickyAccepts 2 0 [2; 3; 4] emptyStore)) 4 = Some 0 /\
  index (final (add pickyAccepts 2 0 [2; 3; 4] emptyStore)) 4 = 2.
Proof.
  assert (Hnd : NoDup [2; 3; 4]).
  { constructor; [simpl; intros [E | [E | []]]; discriminate |].
    constructor; [simpl; intros [E | []]; discriminate |].
    constructor; [intros [] | constructor]. }
  assert (Hfresh : forall a, In a [2; 3; 4] ->
                             parent emptyStore a = None /\ pickyAccepts 0 a = true).
  { intros a _. split; reflexivity. }
  assert (Hne : [2; 3; 4] <> []) by discriminate.
  destruct (X13_add_appends_in_argument_order pickyAccepts 0 0 [2; 3; 4] emptyStore []
              eq_refl Hne Hnd Hfresh) as (Ho & Hch & _ & Hin & _).
  split; [reflexivity |]. split; [exact Hnd |]. split; [exact Hfresh |].
  split; [exact Ho |]. split; [exact Hch |].
  exact (Hin 2 4 eq_refl).
Defined.

Lemma X16_witness_chain :
  isAncestorOf chainStore 0 0 3 = Some true /\
  isAncestorOf chainStore 0 3 4 = Some true /\
  isAncestorOf chainStore 1 0 4 = Some true.
Proof.
  assert (Hf : 0 + 0 + 1 <= 1) by lia.
  split; [reflexivity |]. split; [reflexivity |].
  exact (X16_isAncestorOf_composes chainStore 0 0 1 0 3 4 eq_refl eq_refl Hf).
Defined.

Lemma X17_witness_two_children :
  children emptyStore 0 = Some [] /\
  NoDup [2; 3] /\
  children (final (add pickyAccepts 2 0 [2; 3] emptyStore)) 0 = Some [2; 3] /\
  children (final (removeChildren 0 (final (add pickyAccepts 2 0 [2; 3] emptyStore)))) 0
    = Some [] /\
  parent (final (removeChildren 0 (final (add pickyAccepts 2 0 [2; 3] emptyStore)))) 3
    = None.
Proof.
  assert (Hnd : NoDup [2; 3]).
  { constructor; [simpl; intros [E | []]; discriminate |].
    constructor; [intros [] | constructor]. }
  assert (Hfresh : forall a, In a [2; 3] ->
                             parent emptyStore a = None /\ index emptyStore a = 0 /\
                             pickyAccepts 0 a = true).
  { intros a _. repeat split. }
  assert (Hne : [2; 3] <> []) by discriminate.
  destruct (X17_add_then_removeChildren_round_trip pickyAccepts 0 0 [2; 3] emptyStore
              eq_refl Hne Hnd Hfresh) as (_ & Hnodes & Hch).
  split; [reflexivity |]. split; [exact Hnd |]. split; [reflexivity |].
  split; [exact (Hch 0) | exact (proj1 (Hnodes 3))].
Defined.

Lemma X14_witness_chain :
  outcome (add pickyAccepts 3 3 [4] (final (add pickyAccepts 3 0 [3] emptyStore)))
    = Returned tt /\
  parent chainStore 4 = Some 3 /\
  isAncestorOf chainStore 0 3 4 = Some true /\
  parent chainStore 3 = Some 0.
Proof.
  destruct (X14_add_returned_makes_ancestor pickyAccepts 3 3 [4]
              (final (add pickyAccepts 3 0 [3] emptyStore)) eq_refl)
    as (Hin & Hout).
  destruct (Hin 4 (or_introl eq_refl)) as (Hp & Hanc).
  split; [reflexivity |]. split; [exact Hp |]. split; [exact (Hanc 0) |].
  unfold chainStore. rewrite Hout; [reflexivity |].
  simpl. intros [E | []]. discriminate.
Defined.

Lemma X15_witness_picky_container :
  pickyAccepts 1 2 = false /\
  parent emptyStore 2 = None /\
  outcome (add pickyAccepts 1 1 [2] emptyStore) = Thrown /\
  final (add pickyAccepts 1 1 [2] emptyStore) = emptyStore /\
  parent relocationStore 2 = Some 0 /\
  outcome (add pickyAccepts 2 1 [2] relocationStore) = Thrown /\
  parent (final (add pickyAccepts 2 1 [2] relocationStore)) 2 = None.
Proof.
  destruct (X15_add_rejected_child pickyAccepts 0 1 2 emptyStore eq_refl)
    as (Hfree & _ & _).
  destruct (Hfree eq_refl) as (Ho & Hf & _).
  destruct (X15_add_rejected_child pickyAccepts 0 1 2 relocationStore eq_refl)
    as (_ & Hmoved & _).
  assert (Hne : 0 <> 1) by discriminate.
  destruct (Hmoved 0 eq_refl Hne) as (Ho2 & Hp2 & _).
  split; [reflexivity |]. split; [reflexivity |]. split; [exact Ho |].
  split; [exact Hf |]. split; [reflexivity |]. split; [exact Ho2 | exact Hp2].
Defined.

End MutationMoreFacts.

(** ** Worked instances, continued *)

(** The children of the search scene that have children themselves. *)
Example getChildren_with_filter :
  getChildren_filterFunc (Some hasChildren) searchScene = [n1] /\
  getChildren_filterFunc (Some (fun n => negb (hasChildren n))) searchScene = [n4; n5] /\
  getChildren_filterFunc (Some hasChildren) n5 = [].
Proof. repeat split. Qed.

Lemma X6_witness_clipped_group :
  draw (H := sceneBase noRects) drawScene_ (Container (clippedData 20%float) [n5])
       (Some sceneCanvas) None
  = Some (map (ctx sceneCanvas)
              [save; transform identityMatrix; beginPath;
               rect (Some 20%float) (Some 20%float) (Some 20%float) (Some 20%float);
               clip; transform identityMatrix;
               save; _applyGlobalCompositeOperation 50]
          ++ [shapeDraw drawScene_ 5 (Some sceneCanvas) None]
          ++ map (ctx sceneCanvas) [restore; restore]) /\
  Forall (sent_to drawScene_ sceneCanvas None)
         (map (ctx sceneCanvas)
              [save; transform identityMatrix; beginPath;
               rect (Some 20%float) (Some 20%float) (Some 20%float) (Some 20%float);
               clip; transform identityMatrix;
               save; _applyGlobalCompositeOperation 50]
          ++ [shapeDraw drawScene_ 5 (Some sceneCanvas) None]
          ++ map (ctx sceneCanvas) [restore; restore]).
Proof.
  split; [reflexivity |].
  exact (@X6_draw_hands_down_canvas_and_top (sceneBase noRects) drawScene_
           (Container (clippedData 20%float) [n5]) sceneCanvas None _ eq_refl).
Defined.

Lemma X7_witness_clipped_group_hit :
  draw (H := sceneBase noRects) drawHit_ (Container (clippedData 20%float) [n5])
       (Some sceneCanvas) None
  = Some (map (ctx sceneCanvas)
              [save; transform identityMatrix; beginPath;
               rect (Some 20%float) (Some 20%float) (Some 20%float) (Some 20%float);
               clip; transform identityMatrix]
          ++ [shapeDraw drawHit_ 5 (Some sceneCanvas) None]
          ++ [ctx sceneCanvas restore]) /\
  Forall (fun e => scene_only e = false)
         (map (ctx sceneCanvas)
              [save; transform identityMatrix; beginPath;
               rect (Some 20%float) (Some 20%float) (Some 20%float) (Some 20%float);
               clip; transform identityMatrix]
          ++ [shapeDraw drawHit_ 5 (Some sceneCanvas) None]
          ++ [ctx sceneCanvas restore]).
Proof.
  split; [reflexivity |].
  exact (@X7_drawHit_has_no_scene_event (sceneBase noRects)
           (Container (clippedData 20%float) [n5]) (Some sceneCanvas) None _ eq_refl).
Defined.

Lemma X8_witness_detached_groups :
  resolveCanvas (H := sceneBase noRects) drawScene_ (clippedData 20%float) None = None /\
  passesGate (H := sceneBase noRects) drawScene_ (clippedData 20%float) None None = true /\
  needsContext drawScene_ (clippedData 20%float) None = true /\
  draw (H := sceneBase noRects) drawScene_ (Container (clippedData 20%float) [n5]) None None
    = None.
Proof.
  split; [reflexivity |]. split; [reflexivity |]. split; [reflexivity |].
  exact (@X8_draw_without_canvas (sceneBase noRects) drawScene_ (clippedData 20%float)
           [n5] None eq_refl eq_refl).
Defined.

(** A plain group without a canvas draws its shapes, each of which is left
    to find a canvas of its own; a clipped group below it makes the whole
    call fail. *)
Example draw_without_canvas_plain_group :
  draw (H := sceneBase noRects) drawHit_ searchScene None None
    = Some [shapeDraw drawHit_ 2 None None; shapeDraw drawHit_ 3 None None;
            shapeDraw drawHit_ 4 None None; shapeDraw drawHit_ 5 None None] /\
  draw (H := sceneBase noRects) drawHit_
       (group 60 (plainAttrs true) None [n4; Container (clippedData 20%float) [n5]])
       None None = None.
Proof. split; reflexivity. Qed.

Lemma X9_witness_scenario_A_with_empty_group :
  @_isMatch (sceneBase scenarioRects) (group 41 (plainAttrs true) None [])
            (selString "Shape") = false /\
  degenerate (@_transformedRect (sceneBase scenarioRects)
                (data (group 41 (plainAttrs true) None [])) zeroRect
                (Some (data scenarioA))) = true /\
  getClientRect (H := sceneBase scenarioRects)
    (group 30 (plainAttrs true) None
       [Shape shapeA; group 41 (plainAttrs true) None []; Shape shapeB])
    (mkConfig false false false None)
  = mkRect 0%float 0%float 10%float 10%float.
Proof.
  split; [reflexivity |]. split; [reflexivity |].
  exact (eq_trans
           (@X9_empty_group_leaves_client_rect (sceneBase scenarioRects)
              (data scenarioA) (data (group 41 (plainAttrs true) None []))
              [Shape shapeA] [Shape shapeB] (mkConfig false false false None)
              eq_refl eq_refl)
           eq_refl).
Defined.
